(** * MatConvNet kernels: the fully-connected block and im2row (CPU)

    A shallow embedding of [matlab/src/bits/nnfullyconnected.cu], which holds
    the fully-connected operator ([FullyConnectedForward],
    [FullyConnectedBackward]) and the CPU patch transform
    ([im2row<VLDT_CPU,type>::forward] and [::backward]) together with its
    integer helpers.

    Conventions.
    - [Int] values are modelled by [Z].  Signed overflow is undefined in C++
      and the width of [Int] is declared in a header that is not part of the
      sources, so arithmetic is exact; [Int_range_floor] and
      [Int_range_ceil] record that the helpers stay inside 64 bits on
      operands below [2^62].
    - [/] and [%] on [Int] truncate toward zero ([Z.quot], [Z.rem]) and are
      undefined for a zero divisor: they return [None] there.
    - A pointer into a buffer is an offset of type [Z] into a [list]; a load
      or store outside the list is undefined and returns [None].  The output
      of [forward] is the sequence of the values stored through its cursor:
      the room behind that cursor is the caller's concern.
    - [None] always stands for undefined behaviour: no status code is
      returned to the caller. *)

From Stdlib Require Import ZArith Lia.
From stdpp Require Import base numbers option list list_numbers.

Local Open Scope Z_scope.

(** ** Status codes *)

(** Modelled from the spec: the enumeration [vl::ErrorCode] is declared in a
    header that is not part of the sources, which only name [VLE_Success].
    The other constructors are the closed set of failure kinds of the
    specification's error taxonomy. *)
Inductive ErrorCode : Type :=
| VLE_Success
| VLE_OutOfMemory
| VLE_InvalidArgument
| VLE_BackendFailure
| VLE_Unsupported.

Global Instance ErrorCode_eq_dec : EqDecision ErrorCode.
Proof. solve_decision. Defined.

(** ** Integer helpers *)

Definition Int_div (a b : Z) : option Z :=
  if decide (b = 0) then None else Some (Z.quot a b).

Definition Int_rem (a b : Z) : option Z :=
  if decide (b = 0) then None else Some (Z.rem a b).

Definition floor_divide (a b : Z) : option Z :=
  if a >=? 0 then Int_div a b else Int_div (a - b + 1) b.

Definition ceil_divide (a b : Z) : option Z :=
  if a >=? 0 then Int_div (a + b - 1) b else Int_div a b.

Definition static_max (a b : Z) : Z := if a >=? b then a else b.

Definition static_min (a b : Z) : Z := if a <=? b then a else b.

(** ** Counting loops *)

(** [iterM body xs s] runs [body] once for every element of [xs], in order,
    threading the state and stopping at the first undefined step. *)
Fixpoint iterM {S : Type} (body : Z → S → option S) (xs : list Z) (s : S)
  : option S :=
  match xs with
  | [] => Some s
  | x :: xs' => s' ← body x s; iterM body xs' s'
  end.

(** [for_lt x hi body s] is the loop [for ( ; x < hi ; ++x) body], whose body
    changes neither [x] nor [hi]: the body runs at [x], [x+1], ..., [hi-1],
    and the loop variable is left at [hi], or at [x] when [hi <= x]. *)
Definition for_lt {S : Type} (x hi : Z) (body : Z → S → option S) (s : S)
  : option (Z * S) :=
  s' ← iterM body (seqZ x (hi - x)) s; Some (Z.max x hi, s').

(** ** Buffers *)

Definition load {T : Type} (buf : list T) (i : Z) : option T :=
  if decide (0 ≤ i) then buf !! Z.to_nat i else None.

Definition store {T : Type} (buf : list T) (i : Z) (x : T) : option (list T) :=
  if decide (0 ≤ i < Z.of_nat (length buf))
  then Some (<[Z.to_nat i := x]> buf) else None.

(** ** im2row on the CPU *)

(** The thirteen [Int] arguments that [forward] and [backward] share. *)
Record Geometry : Type := mkGeometry {
  width : Z;
  height : Z;
  depth : Z;
  windowWidth : Z;
  windowHeight : Z;
  strideX : Z;
  strideY : Z;
  padLeft : Z;
  padRight : Z;
  padTop : Z;
  padBottom : Z;
  dilateX : Z;
  dilateY : Z
}.

Definition windowExtentX (g : Geometry) : Z := (windowWidth g - 1) * dilateX g + 1.
Definition windowExtentY (g : Geometry) : Z := (windowHeight g - 1) * dilateY g + 1.
Definition numRows (g : Geometry) : Z := windowWidth g * windowHeight g * depth g.

Section Im2row.
Context {T : Type} (zero : T) (add : T → T → T).

(** [*stacked++ = 0] repeated over one loop on [x]. *)
Definition fill_zero (x hi : Z) (stacked : list T) : option (Z * list T) :=
  for_lt x hi (λ _ stacked, Some (stacked ++ [zero])) stacked.

(** The body of the loop on [row] of [forward].  [stacked] is the sequence
    of values stored through the output cursor so far. *)
Definition forward_row (g : Geometry) (numPatchesX numPatchesY : Z)
    (data : list T) (row : Z) (stacked : list T) : option (list T) :=
  let u := row in
  v ← Int_div u (windowWidth g);
  z ← Int_div v (windowHeight g);
  u ← Int_rem u (windowWidth g);
  v ← Int_rem v (windowHeight g);
  cx ← ceil_divide (padLeft g - u * dilateX g) (strideX g);
  let x0 := static_min numPatchesX cx in
  cy ← ceil_divide (padTop g - v * dilateY g) (strideY g);
  let y0 := static_min numPatchesY cy in
  fx ← floor_divide (width g + padLeft g - u * dilateX g - 1) (strideX g);
  let x1 := static_min numPatchesX (fx + 1) in
  fy ← floor_divide (height g + padTop g - v * dilateY g - 1) (strideY g);
  let y1 := static_min numPatchesY (fy + 1) in
  '(y, stacked) ← for_lt 0 y0
      (λ _ stacked, snd <$> fill_zero 0 numPatchesX stacked) stacked;
  '(y, stacked) ← for_lt y y1
      (λ y stacked,
         '(x, stacked) ← fill_zero 0 x0 stacked;
         let y_data := y * strideY g + v * dilateY g - padTop g in
         let x_data := x * strideX g + u * dilateX g - padLeft g in
         let b := (z * height g + y_data) * width g + x_data in
         '(x, (stacked, b)) ← for_lt x x1
             (λ _ '(stacked, b),
                val ← load data b;
                Some (stacked ++ [val], b + strideX g))
             (stacked, b);
         '(x, stacked) ← fill_zero x numPatchesX stacked;
         Some stacked)
      stacked;
  '(y, stacked) ← for_lt y numPatchesY
      (λ _ stacked, snd <$> fill_zero 0 numPatchesX stacked) stacked;
  Some stacked.

(** [im2row<VLDT_CPU,type>::forward].  The result pairs the status code
    with the contents written to [stacked], from its first element on. *)
Definition forward (g : Geometry) (data : list T)
  : option (ErrorCode * list T) :=
  qx ← Int_div (width g + padLeft g + padRight g - windowExtentX g) (strideX g);
  let numPatchesX := qx + 1 in
  qy ← Int_div (height g + padTop g + padBottom g - windowExtentY g) (strideY g);
  let numPatchesY := qy + 1 in
  '(_, stacked) ← for_lt 0 (numRows g)
      (forward_row g numPatchesX numPatchesY data) [];
  Some (VLE_Success, stacked).

(** [memset(data, 0, sizeof(type) * size_t(n))]: a negative [n] converts to
    a huge [size_t] and overruns every buffer. *)
Definition memset_zero (data : list T) (n : Z) : option (list T) :=
  if decide (0 ≤ n ≤ Z.of_nat (length data))
  then Some (replicate (Z.to_nat n) zero ++ drop (Z.to_nat n) data)
  else None.

(** The body of the loop on [row] of [backward].  The state is the volume
    [data] and the offset [cur] of the read cursor [stacked] from the start
    of the patch matrix. *)
Definition backward_row (g : Geometry) (numPatchesX numPatchesY : Z)
    (stacked : list T) (row : Z) (st : list T * Z) : option (list T * Z) :=
  let '(data, cur) := st in
  let u := row in
  v ← Int_div u (windowWidth g);
  z ← Int_div v (windowHeight g);
  u ← Int_rem u (windowWidth g);
  v ← Int_rem v (windowHeight g);
  cx ← ceil_divide (padLeft g - u * dilateX g) (strideX g);
  let x0 := static_min numPatchesX cx in
  cy ← ceil_divide (padTop g - v * dilateY g) (strideY g);
  let y0 := static_min numPatchesY cy in
  fx ← floor_divide (width g + padLeft g - u * dilateX g - 1) (strideX g);
  let x1 := static_min numPatchesX (fx + 1) in
  fy ← floor_divide (height g + padTop g - v * dilateY g - 1) (strideY g);
  let y1 := static_min numPatchesY (fy + 1) in
  let y := static_max 0 y0 in
  let cur := cur + numPatchesX * static_max 0 y in
  '(y, (data, cur)) ← for_lt y y1
      (λ y '(data, cur),
         let x := static_max 0 x0 in
         let y_data := y * strideY g + v * dilateY g - padTop g in
         let x_data := x * strideX g + u * dilateX g - padLeft g in
         let b := (z * height g + y_data) * width g + x_data in
         let cur := cur + x in
         '(x, (data, cur, b)) ← for_lt x x1
             (λ _ '(data, cur, b),
                s ← load stacked cur;
                d ← load data b;
                data ← store data b (add d s);
                Some (data, cur + 1, b + strideX g))
             (data, cur, b);
         let cur := cur + (numPatchesX - x) in
         Some (data, cur))
      (data, cur);
  let cur := cur + numPatchesX * (numPatchesY - y) in
  Some (data, cur).

(** The loop on [row] of [backward], from a zero-filled volume. *)
Definition backward_rows (g : Geometry) (numPatchesX numPatchesY : Z)
    (stacked data : list T) : option (Z * (list T * Z)) :=
  for_lt 0 (numRows g) (backward_row g numPatchesX numPatchesY stacked) (data, 0).

(** [im2row<VLDT_CPU,type>::backward].  The result pairs the status code
    with the final contents of [data]. *)
Definition backward (g : Geometry) (data stacked : list T)
  : option (ErrorCode * list T) :=
  qx ← Int_div (width g + padLeft g + padRight g - windowExtentX g) (strideX g);
  let numPatchesX := qx + 1 in
  qy ← Int_div (height g + padTop g + padBottom g - windowExtentY g) (strideY g);
  let numPatchesY := qy + 1 in
  data ← memset_zero data (width g * height g * depth g);
  '(_, (data, _)) ← backward_rows g numPatchesX numPatchesY stacked data;
  Some (VLE_Success, data).

End Im2row.

(** ** The patch matrix in the words of the specification *)

(** The patch counts of the geometry, for non-zero strides. *)
Definition numPatchesX (g : Geometry) : Z :=
  Z.quot (width g + padLeft g + padRight g - windowExtentX g) (strideX g) + 1.
Definition numPatchesY (g : Geometry) : Z :=
  Z.quot (height g + padTop g + padBottom g - windowExtentY g) (strideY g) + 1.

(** Volume coordinate sampled by offset [u] (resp. [v]) of patch [x]
    (resp. [y]). *)
Definition x_data (g : Geometry) (u x : Z) : Z :=
  x * strideX g + u * dilateX g - padLeft g.
Definition y_data (g : Geometry) (v y : Z) : Z :=
  y * strideY g + v * dilateY g - padTop g.

(** The sampled coordinate lies in [[0,width) x [0,height)]. *)
Definition inside (g : Geometry) (u v x y : Z) : bool :=
  bool_decide (0 ≤ x_data g u x < width g ∧ 0 ≤ y_data g v y < height g).

(** Offset of voxel [(xd, yd, z)] in the volume. *)
Definition voxel (g : Geometry) (z yd xd : Z) : Z :=
  (z * height g + yd) * width g + xd.

(** Row [(u, v, z)] of the patch matrix, and the offset of its entry for
    patch [(x, y)].  A row index is decoded as the code does it, with the
    truncating division and remainder of C++. *)
Definition row_index (g : Geometry) (u v z : Z) : Z :=
  (z * windowHeight g + v) * windowWidth g + u.
Definition row_u (g : Geometry) (row : Z) : Z := Z.rem row (windowWidth g).
Definition row_v (g : Geometry) (row : Z) : Z :=
  Z.rem (Z.quot row (windowWidth g)) (windowHeight g).
Definition row_z (g : Geometry) (row : Z) : Z :=
  Z.quot (Z.quot row (windowWidth g)) (windowHeight g).
Definition entry_index (g : Geometry) (row y x : Z) : Z :=
  row * (numPatchesX g * numPatchesY g) + y * numPatchesX g + x.

(** The bounds of the valid interval of a row, as [forward] and [backward]
    compute them. *)
Definition valid_x0 (g : Geometry) (u : Z) : Z :=
  static_min (numPatchesX g)
    (default 0 (ceil_divide (padLeft g - u * dilateX g) (strideX g))).
Definition valid_y0 (g : Geometry) (v : Z) : Z :=
  static_min (numPatchesY g)
    (default 0 (ceil_divide (padTop g - v * dilateY g) (strideY g))).
Definition valid_x1 (g : Geometry) (u : Z) : Z :=
  static_min (numPatchesX g)
    (default 0 (floor_divide (width g + padLeft g - u * dilateX g - 1) (strideX g)) + 1).
Definition valid_y1 (g : Geometry) (v : Z) : Z :=
  static_min (numPatchesY g)
    (default 0 (floor_divide (height g + padTop g - v * dilateY g - 1) (strideY g)) + 1).

(** The voxels sampled by the patch matrix, one occurrence for every pair of
    a row [(u, v, z)] and a patch [(x, y)] whose sample is inside the volume,
    and the number of such pairs that sample the voxel at offset [c]. *)
Definition touches (g : Geometry) : list Z :=
  row ← seqZ 0 (numRows g); y ← seqZ 0 (numPatchesY g); x ← seqZ 0 (numPatchesX g);
  if inside g (row_u g row) (row_v g row) x y
  then [voxel g (row_z g row) (y_data g (row_v g row) y) (x_data g (row_u g row) x)]
  else [].

Definition coverage (g : Geometry) (c : Z) : nat :=
  length (filter (λ c', c' = c) (touches g)).

Section PatchMatrix.
Context {T : Type} (zero : T) (add : T → T → T).

(** The element of a buffer at an offset ([zero] outside the buffer). *)
Definition at_offset (buf : list T) (i : Z) : T :=
  default zero (load buf i).

(** The entry of row [(u, v, z)] for patch [(x, y)]: the sampled source
    value, or zero when the sample falls in the padding. *)
Definition sample (g : Geometry) (data : list T) (u v z x y : Z) : T :=
  if inside g u v x y
  then at_offset data (voxel g z (y_data g v y) (x_data g u x))
  else zero.

(** One row of the patch matrix: every patch in raster order, [y] major
    and [x] minor. *)
Definition patch_row (g : Geometry) (nx ny : Z) (data : list T) (row : Z)
  : list T :=
  y ← seqZ 0 ny; x ← seqZ 0 nx;
  [sample g data (row_u g row) (row_v g row) (row_z g row) x y].

Definition patch_matrix (g : Geometry) (data : list T) : list T :=
  row ← seqZ 0 (numRows g); patch_row g (numPatchesX g) (numPatchesY g) data row.

(** Scatter-accumulation: an event [(i, s)] adds [s] to the voxel at offset
    [i]. *)
Definition accumulate (data : list T) (e : Z * T) : list T :=
  if decide (0 ≤ e.1) then alter (λ d, add d e.2) (Z.to_nat e.1) data
  else data.

Definition scatter (events : list (Z * T)) (data : list T) : list T :=
  foldl accumulate data events.

(** The events of one row of the patch matrix: for every patch, in raster
    order, whose sample is inside the volume, the sampled voxel and the
    entry of the patch matrix. *)
Definition row_events (g : Geometry) (nx ny : Z) (stacked : list T) (row : Z)
  : list (Z * T) :=
  y ← seqZ 0 ny; x ← seqZ 0 nx;
  if inside g (row_u g row) (row_v g row) x y
  then [(voxel g (row_z g row) (y_data g (row_v g row) y) (x_data g (row_u g row) x),
         at_offset stacked (row * (nx * ny) + y * nx + x))]
  else [].

Definition patch_events (g : Geometry) (stacked : list T) : list (Z * T) :=
  row ← seqZ 0 (numRows g);
  row_events g (numPatchesX g) (numPatchesY g) stacked row.

(** The values added to the voxel at offset [c], in the order of the
    traversal. *)
Definition contributions (events : list (Z * T)) (c : Z) : list T :=
  snd <$> filter (λ e, e.1 = c) events.

End PatchMatrix.

(** The entries [(row, y, x)] of the patch matrix, in the order in which
    [forward] writes them and [backward] reads them. *)
Definition entries (g : Geometry) : list (Z * Z * Z) :=
  row ← seqZ 0 (numRows g); y ← seqZ 0 (numPatchesY g);
  x ← seqZ 0 (numPatchesX g); [(row, y, x)].

Section InnerProduct.
Context {T : Type} (zero : T) (add mul : T → T → T).

(** The inner product of two buffers, over their common length. *)
Definition inner_product (a b : list T) : T :=
  foldl (λ acc p, add acc (mul p.1 p.2)) zero (zip a b).

End InnerProduct.

(** ** The fully-connected block *)

(** A pointer to the start of a buffer; [None] is [NULL]. *)
Definition pointer : Type := option nat.

(** Modelled from the spec: [vl::Tensor] is declared in a header that is not
    part of the sources.  It is a four-dimensional shape together with a
    reference to memory; an absent (empty) tensor has no memory and converts
    to [false]. *)
Record Tensor : Type := mkTensor {
  getWidth : Z;
  getHeight : Z;
  getDepth : Z;
  getSize : Z;
  getMemory : pointer
}.

Definition getNumElements (t : Tensor) : Z :=
  getWidth t * getHeight t * getDepth t * getSize t.

(** [if (t)]: the tensor is present. *)
Definition present (t : Tensor) : bool :=
  match getMemory t with Some _ => true | None => false end.

(** The [char] arguments ['n'] and ['t'] of the linear-algebra calls. *)
Inductive Transpose : Type := NoTrans | Trans.

Section FullyConnected.
Context {R : Type} (zero one : R) (add mul : R → R → R).

(** Every buffer is an array indexed from its start. *)
Definition Memory : Type := nat → Z → R.

Definition upd (mem : Memory) (b : nat) (buf : Z → R) : Memory :=
  λ b', if decide (b' = b) then buf else mem b'.

(** The calls the operator makes to its collaborators, with their
    arguments in the order of the source. *)
Inductive Call : Type :=
| CallGemv (trans : Transpose) (m n : Z) (alpha : R) (A : pointer) (lda : Z)
    (x : pointer) (incx : Z) (beta : R) (y : pointer) (incy : Z)
| CallGemm (transA transB : Transpose) (m n k : Z) (alpha : R)
    (A : pointer) (lda : Z) (B : pointer) (ldb : Z) (beta : R)
    (C : pointer) (ldc : Z)
| CallCopy (dst src : pointer) (count : Z)
| CallGetAllOnes (n : Z).

(** The state reached through [op.getContext()]: the memory the tensors
    point into, the last error recorded by the context, and the calls made
    so far, oldest first. *)
Record World : Type := mkWorld {
  memory : Memory;
  lastError : ErrorCode;
  calls : list Call
}.

(** [respond c] is the status with which the collaborator answers the call
    [c]; [allOnes] is the buffer of the context's all-ones cache. *)
Context (respond : Call → ErrorCode) (allOnes : nat).

(** A computation on the world; [None] is undefined behaviour (a null
    pointer handed to a collaborator that succeeds). *)
Definition Op (A : Type) : Type := World → option (A * World).

Definition ret {A : Type} (a : A) : Op A := λ w, Some (a, w).

Definition bind {A B : Type} (m : Op A) (k : A → Op B) : Op B :=
  λ w, match m w with Some (a, w') => k a w' | None => None end.

Local Notation "x <- m ;; k" := (bind m (λ x, k))
  (at level 100, m at next level, right associativity).

(** [dot k f g] is the sum of [f l * g l] for [l] from [0] to [k - 1]. *)
Definition dot (k : Z) (f g : Z → R) : R :=
  foldl (λ acc l, add acc (mul (f l) (g l))) zero (seqZ 0 k).

(** Offset of element [(row, col)] of [op(X)], for [X] stored by columns
    with leading dimension [ld]. *)
Definition op_index (t : Transpose) (ld row col : Z) : Z :=
  match t with
  | NoTrans => row + col * ld
  | Trans => col + row * ld
  end.

(** Modelled from the spec: the general matrix multiply of the
    linear-algebra facade ([impl/blashelper.hpp], not part of the sources),
    with the argument list of the specification's [generalMultiply] and the
    BLAS contract [C := alpha * op(A) * op(B) + beta * C] on column-major
    storage, [C] being [m] by [n] with leading dimension [ldc >= m]. *)
Definition gemm_result (transA transB : Transpose) (m n k : Z) (alpha : R)
    (A : Z → R) (lda : Z) (B : Z → R) (ldb : Z) (beta : R)
    (C : Z → R) (ldc : Z) : Z → R :=
  λ idx,
    let i := idx `mod` ldc in
    let j := idx `div` ldc in
    if bool_decide (0 < ldc ∧ 0 ≤ idx ∧ i < m ∧ j < n)
    then add (mul alpha (dot k (λ l, A (op_index transA lda i l))
                               (λ l, B (op_index transB ldb l j))))
             (mul beta (C idx))
    else C idx.

(** Modelled from the spec: the matrix-vector multiply of the facade, with
    the BLAS contract [y := alpha * op(A) * x + beta * y] for an [m] by [n]
    matrix [A]. *)
Definition gemv_result (trans : Transpose) (m n : Z) (alpha : R)
    (A : Z → R) (lda : Z) (x : Z → R) (incx : Z) (beta : R)
    (y : Z → R) (incy : Z) : Z → R :=
  λ idx,
    let len := match trans with NoTrans => m | Trans => n end in
    let inner := match trans with NoTrans => n | Trans => m end in
    let j := idx `div` incy in
    if bool_decide (0 < incy ∧ 0 ≤ idx ∧ idx `mod` incy = 0 ∧ j < len)
    then add (mul alpha (dot inner (λ l, A (op_index trans lda j l))
                                   (λ l, x (l * incx))))
             (mul beta (y idx))
    else y idx.

(** Modelled from the spec: the element-wise copy of [count] elements. *)
Definition copy_result (dst src : Z → R) (count : Z) : Z → R :=
  λ idx, if bool_decide (0 ≤ idx < count) then src idx else dst idx.

(** A call to a collaborator: it is recorded, and when the collaborator
    answers [VLE_Success] its effect is applied to the memory.  A failing
    call leaves the memory as it is. *)
Definition call (c : Call) (effect : Memory → option Memory) : Op ErrorCode :=
  λ w,
    let w := mkWorld (memory w) (lastError w) (calls w ++ [c]) in
    match respond c with
    | VLE_Success =>
        mem ← effect (memory w);
        Some (VLE_Success, mkWorld mem (lastError w) (calls w))
    | e => Some (e, w)
    end.

Definition gemv (trans : Transpose) (m n : Z) (alpha : R) (A : pointer)
    (lda : Z) (x : pointer) (incx : Z) (beta : R) (y : pointer) (incy : Z)
  : Op ErrorCode :=
  call (CallGemv trans m n alpha A lda x incx beta y incy)
    (λ mem,
       a ← A; b ← x; c ← y;
       Some (upd mem c (gemv_result trans m n alpha (mem a) lda (mem b) incx
                          beta (mem c) incy))).

Definition gemm (transA transB : Transpose) (m n k : Z) (alpha : R)
    (A : pointer) (lda : Z) (B : pointer) (ldb : Z) (beta : R)
    (C : pointer) (ldc : Z) : Op ErrorCode :=
  call (CallGemm transA transB m n k alpha A lda B ldb beta C ldc)
    (λ mem,
       a ← A; b ← B; c ← C;
       Some (upd mem c (gemm_result transA transB m n k alpha (mem a) lda
                          (mem b) ldb beta (mem c) ldc))).

Definition copy (dst src : pointer) (count : Z) : Op ErrorCode :=
  call (CallCopy dst src count)
    (λ mem, d ← dst; s ← src; Some (upd mem d (copy_result (mem d) (mem s) count))).

(** Modelled from the spec: [Context::getAllOnes] returns a pointer to a
    buffer whose first [n] elements are one, or [NULL] after recording the
    failure in the context. *)
Definition getAllOnes (n : Z) : Op pointer :=
  λ w,
    let w := mkWorld (memory w) (lastError w) (calls w ++ [CallGetAllOnes n]) in
    match respond (CallGetAllOnes n) with
    | VLE_Success =>
        let ones := λ idx, if bool_decide (0 ≤ idx < n) then one
                           else memory w allOnes idx in
        Some (Some allOnes, mkWorld (upd (memory w) allOnes ones) (lastError w) (calls w))
    | e => Some (None, mkWorld (memory w) e (calls w))
    end.

Definition getLastError : Op ErrorCode := λ w, Some (lastError w, w).

(** Modelled from the spec: [Context::passError] hands the code it is
    given back unchanged (the message it attaches is not modelled). *)
Definition passError (error : ErrorCode) : Op ErrorCode := ret error.

(** [FullyConnectedForward::operator()].  [goto done] is a return from the
    block that precedes the label; [bias_step] is the text from
    [if (bias)] to the label, entered with the current value of [error]. *)
Definition FullyConnectedForward (output input filter bias : Tensor)
  : Op ErrorCode :=
  let error := VLE_Success in
  let alpha := one in
  let beta := zero in
  let bias_step (error : ErrorCode) : Op ErrorCode :=
    if present bias then
      let beta := one in
      allOnesMemory <- getAllOnes (getSize input) ;;
      match allOnesMemory with
      | None => getLastError
      | Some _ =>
          gemm NoTrans NoTrans
            (getNumElements bias) (getSize input) 1
            alpha
            (getMemory bias) (getNumElements bias)
            allOnesMemory 1
            beta
            (getMemory output) (getNumElements bias)
      end
    else ret error in
  error <-
    (if present filter then
       let filterVolume := getHeight filter * getWidth filter * getDepth filter in
       if decide (getSize input = 1) then
         error <- gemv Trans
                    filterVolume (getSize filter)
                    alpha
                    (getMemory filter) filterVolume
                    (getMemory input) 1
                    beta
                    (getMemory output) 1 ;;
         if decide (error ≠ VLE_Success) then ret error else bias_step error
       else
         error <- gemm Trans NoTrans
                    (getSize filter)
                    (getSize input)
                    filterVolume
                    alpha
                    (getMemory filter) filterVolume
                    (getMemory input) filterVolume
                    beta
                    (getMemory output) (getSize filter) ;;
         if decide (error ≠ VLE_Success) then ret error else bias_step error
     else
       error <- copy (getMemory output) (getMemory input) (getNumElements input) ;;
       bias_step error) ;;
  passError error.

(** [FullyConnectedBackward::operator()], with [bias_step] the text from
    [if (derBias)] to the label [done]. *)
Definition FullyConnectedBackward
    (derInput derFilter derBias input filter derOutput : Tensor)
  : Op ErrorCode :=
  let error := VLE_Success in
  let alpha := one in
  let beta := zero in
  let bias_step (error : ErrorCode) : Op ErrorCode :=
    if present derBias then
      allOnesMemory <- getAllOnes (getSize derOutput) ;;
      match allOnesMemory with
      | None => getLastError
      | Some _ =>
          gemm NoTrans Trans
            1
            (getDepth derOutput)
            (getSize derOutput)
            alpha
            allOnesMemory 1
            (getMemory derOutput) (getDepth derOutput)
            beta
            (getMemory derBias) 1
      end
    else ret error in
  error <-
    (if present filter then
       let filterVolume := getHeight filter * getWidth filter * getDepth filter in
       error <-
         (if present derFilter then
            gemm NoTrans Trans
              filterVolume
              (getSize filter)
              (getSize input)
              alpha
              (getMemory input) filterVolume
              (getMemory derOutput) (getSize filter)
              beta
              (getMemory derFilter) filterVolume
          else ret error) ;;
       if decide (error ≠ VLE_Success) then ret error else
       error <-
         (if present derInput then
            gemm NoTrans NoTrans
              filterVolume
              (getSize input)
              (getSize filter)
              alpha
              (getMemory filter) filterVolume
              (getMemory derOutput) (getSize filter)
              beta
              (getMemory derInput) filterVolume
          else ret error) ;;
       if decide (error ≠ VLE_Success) then ret error else bias_step error
     else
       _ <- copy (getMemory derInput) (getMemory derOutput)
              (getNumElements derOutput) ;;
       bias_step error) ;;
  passError error.

End FullyConnected.

(** ** The fully-connected block in the words of the specification *)

Section FullyConnectedSpec.
Context {R : Type} (zero one : R) (add mul : R → R → R).

(** Entry [(j, col)] of [filter^T * input], both stored as flattened
    columns of length [V]. *)
Definition product (V : Z) (filter input : Z → R) (j col : Z) : R :=
  dot zero add mul V (λ l, filter (l + j * V)) (λ l, input (l + col * V)).

(** The sum of [f l] for [l] from [0] to [n - 1]. *)
Definition sum (n : Z) (f : Z → R) : R :=
  foldl (λ acc l, add acc (f l)) zero (seqZ 0 n).

(** The call stores its result in buffer [b]. *)
Definition writes (c : @Call R) (b : nat) : Prop :=
  match c with
  | CallGemv _ _ _ _ _ _ _ _ _ y _ => y = Some b
  | CallGemm _ _ _ _ _ _ _ _ _ _ _ C _ => C = Some b
  | CallCopy dst _ _ => dst = Some b
  | CallGetAllOnes _ => False
  end.

(** A gradient slot is computed by a list of calls when one of them stores
    its result in the memory of the slot. *)
Definition computed (t : Tensor) (cs : list (@Call R)) : Prop :=
  ∃ b c, getMemory t = Some b ∧ c ∈ cs ∧ writes c b.

(** Each of the three gradient slots is computed if and only if it is
    present. *)
Definition slots_follow_presence (derInput derFilter derBias : Tensor)
    (cs : list (@Call R)) : Prop :=
  (computed derInput cs ↔ present derInput = true)
  ∧ (computed derFilter cs ↔ present derFilter = true)
  ∧ (computed derBias cs ↔ present derBias = true).

(** The calls of a forward pass all of whose calls succeed. *)
Definition forward_calls (allOnes : nat) (output input filter bias : Tensor)
  : list (@Call R) :=
  let filterVolume := getHeight filter * getWidth filter * getDepth filter in
  [if present filter then
     if decide (getSize input = 1) then
       CallGemv Trans filterVolume (getSize filter) one
         (getMemory filter) filterVolume (getMemory input) 1 zero
         (getMemory output) 1
     else
       CallGemm Trans NoTrans (getSize filter) (getSize input) filterVolume one
         (getMemory filter) filterVolume (getMemory input) filterVolume zero
         (getMemory output) (getSize filter)
   else CallCopy (getMemory output) (getMemory input) (getNumElements input)]
  ++ (if present bias then
        [CallGetAllOnes (getSize input);
         CallGemm NoTrans NoTrans (getNumElements bias) (getSize input) 1 one
           (getMemory bias) (getNumElements bias) (Some allOnes) 1 one
           (getMemory output) (getNumElements bias)]
      else []).

(** The calls of the bias step of a backward pass that reaches it and all
    of whose calls succeed. *)
Definition backward_bias_calls (allOnes : nat) (derBias derOutput : Tensor)
  : list (@Call R) :=
  if present derBias then
    [CallGetAllOnes (getSize derOutput);
     CallGemm NoTrans Trans 1 (getDepth derOutput) (getSize derOutput) one
       (Some allOnes) 1 (getMemory derOutput) (getDepth derOutput) zero
       (getMemory derBias) 1]
  else [].

(** The calls of a backward pass all of whose calls succeed. *)
Definition backward_calls (allOnes : nat)
    (derInput derFilter derBias input filter derOutput : Tensor)
  : list (@Call R) :=
  let filterVolume := getHeight filter * getWidth filter * getDepth filter in
  (if present filter then
     (if present derFilter then
        [CallGemm NoTrans Trans filterVolume (getSize filter) (getSize input) one
           (getMemory input) filterVolume (getMemory derOutput) (getSize filter)
           zero (getMemory derFilter) filterVolume]
      else [])
     ++ (if present derInput then
           [CallGemm NoTrans NoTrans filterVolume (getSize input) (getSize filter)
              one (getMemory filter) filterVolume (getMemory derOutput)
              (getSize filter) zero (getMemory derInput) filterVolume]
         else [])
   else
     [CallCopy (getMemory derInput) (getMemory derOutput)
        (getNumElements derOutput)])
  ++ backward_bias_calls allOnes derBias derOutput.

(** The status a backward pass returns after the calls [cs]: that of its
    last call, except that the status of the copy is dropped. *)
Definition backward_status_of (respond : @Call R → ErrorCode)
    (cs : list (@Call R)) : ErrorCode :=
  match last cs with
  | None => VLE_Success
  | Some (CallCopy _ _ _) => VLE_Success
  | Some c => respond c
  end.

End FullyConnectedSpec.

(** A memory given by the contents of its first buffers; every other element
    is zero. *)
Definition memory_of (buffers : list (list Z)) : @Memory Z :=
  λ b idx, default 0 (buf ← buffers !! b; load buf idx).

(** The collaborators answer every call with success. *)
Definition always_succeeds {R : Type} (c : @Call R) : ErrorCode := VLE_Success.

(** The element-wise copy fails; every other call succeeds. *)
Definition copy_fails {R : Type} (c : @Call R) : ErrorCode :=
  match c with
  | CallCopy _ _ _ => VLE_BackendFailure
  | _ => VLE_Success
  end.

(** The matrix products fail; every other call succeeds. *)
Definition product_fails {R : Type} (c : @Call R) : ErrorCode :=
  match c with
  | CallGemv _ _ _ _ _ _ _ _ _ _ _ => VLE_BackendFailure
  | CallGemm _ _ _ _ _ _ _ _ _ _ _ _ _ => VLE_BackendFailure
  | _ => VLE_Success
  end.

(** The request for the all-ones vector fails; every other call
    succeeds. *)
Definition allOnes_fails {R : Type} (c : @Call R) : ErrorCode :=
  match c with
  | CallGetAllOnes _ => VLE_OutOfMemory
  | _ => VLE_Success
  end.


Definition absent : Tensor := mkTensor 0 0 0 0 None.

(** ** Concrete inputs *)

Definition geometry_4x4 : Geometry := mkGeometry 4 4 1 2 2 1 1 0 0 0 0 1 1.
Definition volume_4x4 : list Z := seqZ 1 16.
Definition geometry_padded : Geometry := mkGeometry 3 2 1 2 2 1 1 1 1 1 1 1 1.
Definition geometry_gap : Geometry := mkGeometry 3 1 1 1 1 2 1 0 0 0 0 1 1.
Definition geometry_zero_stride : Geometry := mkGeometry 3 1 1 1 1 0 1 0 0 0 0 1 1.
Definition geometry_negative_count : Geometry := mkGeometry 1 1 1 3 1 1 1 0 0 0 0 1 0.


(** A small fully-connected layer: three inputs of volume three, two
    filters, and one buffer for every tensor. *)
Definition example_memory : @Memory Z :=
  memory_of [ [1; 2; 1; 2; 1; 2];
              [1; 0; 0; 0; 1; 0];
              [5; 6; 7; 8; 9; 10; 11; 12; 13];
              []; []; [];
              [100; 200];
              [] ].
Definition example_world : @World Z := mkWorld example_memory VLE_Success [].
Definition example_allOnes : nat := 9%nat.
Definition example_derOutput : Tensor := mkTensor 1 1 2 3 (Some 0%nat).
Definition example_filter : Tensor := mkTensor 1 1 3 2 (Some 1%nat).
Definition example_input : Tensor := mkTensor 1 1 3 3 (Some 2%nat).
Definition example_derBias : Tensor := mkTensor 1 1 2 1 (Some 3%nat).
Definition example_output : Tensor := mkTensor 1 1 2 3 (Some 4%nat).
Definition example_derInput : Tensor := mkTensor 1 1 3 3 (Some 5%nat).
Definition example_bias : Tensor := mkTensor 1 1 2 1 (Some 6%nat).
Definition example_derFilter : Tensor := mkTensor 1 1 3 2 (Some 7%nat).

(** A window of width three on a volume of width two, with stride five:
    the window overhangs the volume by less than a stride. *)
Definition geometry_overhang : Geometry := mkGeometry 2 1 1 3 1 5 1 0 0 0 0 1 1.


(** Closed arithmetic facts on concrete inputs. *)
Ltac by_computation :=
  vm_compute; repeat split; first [reflexivity | discriminate | lia].

(** ** Facts on the integer helpers *)

Lemma static_min_spec a b : static_min a b = Z.min a b.
Proof. unfold static_min. destruct (Z.leb_spec a b); lia. Qed.

Lemma static_max_spec a b : static_max a b = Z.max a b.
Proof. unfold static_max, Z.geb. destruct (Z.compare_spec a b); lia. Qed.

Lemma Int_div_pos a b : 0 < b → Int_div a b = Some (Z.quot a b).
Proof. intros Hb. unfold Int_div. destruct (decide (b = 0)); [lia | done]. Qed.

Lemma floor_bounds a b : 0 < b → b * (a `div` b) ≤ a < b * (a `div` b + 1).
Proof.
  intros Hb. pose proof (Z.mul_div_le a b Hb).
  pose proof (Z.mul_succ_div_gt a b Hb). lia.
Qed.

Lemma floor_unique a b q : 0 < b → b * q ≤ a < b * (q + 1) → a `div` b = q.
Proof.
  intros Hb Hq. symmetry. apply Z.div_unique with (r := a - b * q); lia.
Qed.

Lemma quot_neg_ceil a b : 0 < b → a ≤ 0 → Z.quot a b = - ((- a) `div` b).
Proof.
  intros Hb Ha. rewrite <- (Z.opp_involutive a) at 1.
  rewrite Z.quot_opp_l by lia. rewrite Z.quot_div_nonneg by lia. done.
Qed.

Lemma floor_divide_floor a b : 0 < b → floor_divide a b = Some (a `div` b).
Proof.
  intros Hb. unfold floor_divide. destruct (Z.geb_spec a 0) as [Ha|Ha].
  - rewrite Int_div_pos by done. f_equal. apply Z.quot_div_nonneg; lia.
  - rewrite Int_div_pos by done. f_equal.
    rewrite quot_neg_ceil by lia. symmetry. apply floor_unique; [done|].
    pose proof (floor_bounds (- (a - b + 1)) b Hb). lia.
Qed.

Lemma ceil_divide_ceil a b :
  0 < b → ceil_divide a b = Some (- ((- a) `div` b)).
Proof.
  intros Hb. unfold ceil_divide. destruct (Z.geb_spec a 0) as [Ha|Ha].
  - rewrite Int_div_pos by done. f_equal.
    rewrite Z.quot_div_nonneg by lia.
    apply Z.opp_inj. rewrite Z.opp_involutive. symmetry.
    apply floor_unique; [done|].
    pose proof (floor_bounds (a + b - 1) b Hb). lia.
  - rewrite Int_div_pos by done. f_equal. apply quot_neg_ceil; lia.
Qed.

Lemma ceil_bounds a b :
  0 < b → b * (- ((- a) `div` b) - 1) < a ≤ b * (- ((- a) `div` b)).
Proof. intros Hb. pose proof (floor_bounds (- a) b Hb). lia. Qed.

(** On operands below [2^62] in absolute value the helpers compute nothing
    outside the range of a 64-bit [Int]. *)
Lemma Int_range_floor a b q :
  0 < b < 2 ^ 62 → - 2 ^ 62 ≤ a < 2 ^ 62 → floor_divide a b = Some q →
  - 2 ^ 63 ≤ a - b + 1 < 2 ^ 63 ∧ - 2 ^ 63 ≤ q < 2 ^ 63.
Proof.
  intros Hb Ha. rewrite floor_divide_floor by lia. intros [= <-].
  pose proof (floor_bounds a b ltac:(lia)). split; [lia|]. nia.
Qed.

Lemma Int_range_ceil a b q :
  0 < b < 2 ^ 62 → - 2 ^ 62 ≤ a < 2 ^ 62 → ceil_divide a b = Some q →
  - 2 ^ 63 ≤ a + b - 1 < 2 ^ 63 ∧ - 2 ^ 63 ≤ q < 2 ^ 63.
Proof.
  intros Hb Ha. rewrite ceil_divide_ceil by lia. intros [= <-].
  pose proof (ceil_bounds a b ltac:(lia)). split; [lia|]. nia.
Qed.



(** ** Counting loops in closed form *)

Section Loops.
Context {S : Type}.
Implicit Types (body : Z → S → option S) (F : Z → S).

(** A loop whose state at loop variable [i] is [F i]. *)
Lemma iterM_closed body F lo n :
  (∀ i, lo ≤ i < lo + n → body i (F i) = Some (F (i + 1))) →
  iterM body (seqZ lo n) (F lo) = Some (F (lo + Z.max 0 n)).
Proof.
  remember (Z.to_nat n) as k eqn:Hk. revert lo n Hk.
  induction k as [|k IH]; intros lo n Hk Hbody.
  - rewrite seqZ_nil by lia. simpl. do 2 f_equal. lia.
  - rewrite seqZ_cons by lia. simpl. rewrite Hbody by lia. simpl.
    replace (Z.succ lo) with (lo + 1) by lia.
    rewrite (IH (lo + 1) (Z.pred n)) by (first [lia | intros; apply Hbody; lia]).
    do 2 f_equal. lia.
Qed.

Lemma for_lt_closed body F x hi :
  (∀ i, x ≤ i < hi → body i (F i) = Some (F (i + 1))) →
  for_lt x hi body (F x) = Some (Z.max x hi, F (Z.max x hi)).
Proof.
  intros Hbody. unfold for_lt.
  rewrite (iterM_closed body F) by (intros; apply Hbody; lia). simpl.
  do 3 f_equal. lia.
Qed.

End Loops.

(** A loop that only appends to a list. *)
Lemma for_lt_append {A : Type} (body : Z → list A → option (list A))
    (f : Z → list A) x hi st :
  (∀ i st', x ≤ i < hi → body i st' = Some (st' ++ f i)) →
  for_lt x hi body st = Some (Z.max x hi, st ++ (seqZ x (hi - x) ≫= f)).
Proof.
  intros Hbody.
  pose (F := λ i : Z, st ++ (seqZ x (i - x) ≫= f)).
  assert (HF : F x = st).
  { unfold F. rewrite seqZ_nil by lia. simpl. apply app_nil_r. }
  rewrite <- HF at 1. rewrite (for_lt_closed body F).
  - unfold F. do 3 f_equal. destruct (Z.max_spec x hi) as [[? ->]|[? ->]].
    + done.
    + rewrite !seqZ_nil by lia. done.
  - intros i Hi. unfold F. rewrite Hbody by done. f_equal.
    replace (i + 1 - x) with ((i - x) + 1) by lia.
    rewrite seqZ_app by lia. rewrite bind_app, <- app_assoc. do 2 f_equal.
    replace (x + (i - x)) with i by lia.
    rewrite seqZ_cons, seqZ_nil by lia. simpl. by rewrite app_nil_r.
Qed.

(** Loop invariants. *)
Section LoopInvariants.
Context {S : Type} (P : Z → S → Prop) (body : Z → S → option S).

Lemma iterM_inv lo n s s' :
  (∀ i t t', lo ≤ i < lo + n → P i t → body i t = Some t' → P (i + 1) t') →
  P lo s → iterM body (seqZ lo n) s = Some s' → P (lo + Z.max 0 n) s'.
Proof.
  remember (Z.to_nat n) as k eqn:Hk. revert lo n s Hk.
  induction k as [|k IH]; intros lo n s Hk Hstep Hs.
  - rewrite seqZ_nil by lia. simpl. intros [= <-].
    by replace (lo + Z.max 0 n) with lo by lia.
  - rewrite seqZ_cons by lia. simpl.
    destruct (body lo s) as [t|] eqn:Hb; simpl; [|done].
    intros Hrest. replace (lo + Z.max 0 n) with (Z.succ lo + Z.max 0 (Z.pred n)) by lia.
    apply (IH _ _ t); [lia| |by apply (Hstep lo s); [lia|..]|done].
    intros i t1 t2 Hi. apply Hstep. lia.
Qed.

Lemma for_lt_inv x hi s r :
  (∀ i t t', x ≤ i < hi → P i t → body i t = Some t' → P (i + 1) t') →
  P x s → for_lt x hi body s = Some r →
  r.1 = Z.max x hi ∧ P (Z.max x hi) r.2.
Proof.
  intros Hstep Hs. unfold for_lt.
  destruct (iterM _ _ _) as [s'|] eqn:Hi; simpl; [|done].
  intros [= <-]. split; [done|]. simpl.
  replace (Z.max x hi) with (x + Z.max 0 (hi - x)) by lia.
  apply (iterM_inv _ _ s); [|done|done].
  intros i t t' Hr. apply Hstep. lia.
Qed.

End LoopInvariants.

Lemma seqZ_split lo mid n :
  lo ≤ mid ≤ Z.max lo (lo + n) →
  seqZ lo n = seqZ lo (mid - lo) ++ seqZ mid (lo + n - mid).
Proof.
  intros H. destruct (decide (n < 0)).
  - replace mid with lo by lia. rewrite (seqZ_nil lo (lo - lo)) by lia.
    simpl. f_equal. lia.
  - replace n with ((mid - lo) + (lo + n - mid)) at 1 by lia.
    rewrite seqZ_app by lia. do 2 f_equal. lia.
Qed.

Lemma seqZ_max lo hi : seqZ lo (Z.max lo hi - lo) = seqZ lo (hi - lo).
Proof.
  destruct (Z.max_spec lo hi) as [[? ->]|[? ->]]; [done|].
  by rewrite !seqZ_nil by lia.
Qed.

Lemma bind_ext_seqZ {B : Type} (f h : Z → list B) lo n :
  (∀ i, lo ≤ i < lo + n → f i = h i) → seqZ lo n ≫= f = seqZ lo n ≫= h.
Proof.
  intros H. apply Forall_bind_ext, Forall_seqZ. done.
Qed.

(** ** The valid interval *)

Lemma interval_exact N size pad off s x :
  0 < s →
  Z.max 0 (static_min N (- ((- (pad - off)) `div` s))) ≤ x
    < static_min N ((size + pad - off - 1) `div` s + 1)
  ↔ 0 ≤ x < N ∧ 0 ≤ x * s + off - pad < size.
Proof.
  intros Hs. rewrite !static_min_spec.
  pose proof (ceil_bounds (pad - off) s Hs) as [Hc1 Hc2].
  pose proof (floor_bounds (size + pad - off - 1) s Hs) as [Hf1 Hf2].
  set (c := - ((- (pad - off)) `div` s)) in *.
  set (f := (size + pad - off - 1) `div` s) in *.
  split.
  - intros [Hlo Hhi].
    assert (c ≤ x) by lia. assert (x ≤ f) by lia. nia.
  - intros [[Hx0 HxN] [Hd0 Hd1]].
    assert (c ≤ x) by nia. assert (x ≤ f) by nia. lia.
Qed.

Lemma Int_div_nonzero a b : b ≠ 0 → Int_div a b = Some (Z.quot a b).
Proof. intros. unfold Int_div. by rewrite decide_False. Qed.

Lemma Int_rem_nonzero a b : b ≠ 0 → Int_rem a b = Some (Z.rem a b).
Proof. intros. unfold Int_rem. by rewrite decide_False. Qed.

Lemma load_lookup {T : Type} (buf : list T) (i : Z) :
  0 ≤ i < Z.of_nat (length buf) → is_Some (load buf i).
Proof.
  intros Hi. unfold load. destruct (decide (0 ≤ i)); [|lia].
  apply lookup_lt_is_Some. lia.
Qed.

Section Im2rowForward.
Context {T : Type} (zero : T).

Lemma load_at_offset (buf : list T) (i : Z) :
  0 ≤ i < Z.of_nat (length buf) → load buf i = Some (at_offset zero buf i).
Proof.
  intros Hi. unfold at_offset. destruct (load_lookup buf i Hi) as [x ->]. done.
Qed.

Lemma fill_zero_spec x hi (st : list T) :
  fill_zero zero x hi st
  = Some (Z.max x hi, st ++ (seqZ x (hi - x) ≫= λ _, [zero])).
Proof. unfold fill_zero. by apply for_lt_append. Qed.

(** The copy loop of [forward]: [*stacked++ = *b ; b += strideX]. *)
Lemma copy_loop_spec (data : list T) s b0 xs x1 (st : list T) :
  (∀ i, xs ≤ i < x1 → 0 ≤ b0 + (i - xs) * s < Z.of_nat (length data)) →
  for_lt xs x1
    (λ _ '(stacked, b), val ← load data b; Some (stacked ++ [val], b + s))
    (st, b0)
  = Some (Z.max xs x1,
          (st ++ (seqZ xs (x1 - xs) ≫= λ i, [at_offset zero data (b0 + (i - xs) * s)]),
           b0 + (Z.max xs x1 - xs) * s)).
Proof.
  intros Hin.
  pose (F := λ i : Z,
    (st ++ (seqZ xs (i - xs) ≫= λ i, [at_offset zero data (b0 + (i - xs) * s)]),
     b0 + (i - xs) * s)).
  assert (HF : F xs = (st, b0)).
  { unfold F. rewrite seqZ_nil by lia. simpl. rewrite app_nil_r. f_equal. lia. }
  rewrite <- HF. rewrite (for_lt_closed _ F).
  - unfold F. rewrite seqZ_max. done.
  - intros i Hi. unfold F. rewrite load_at_offset by auto. simpl.
    do 2 f_equal; [|lia].
    replace (i + 1 - xs) with ((i - xs) + 1) by lia.
    rewrite seqZ_app by lia. rewrite bind_app, <- app_assoc. do 2 f_equal.
    replace (xs + (i - xs)) with i by lia.
    rewrite seqZ_cons, seqZ_nil by lia. done.
Qed.

Lemma voxel_range g z yd xd :
  0 ≤ z < depth g → 0 ≤ yd < height g → 0 ≤ xd < width g →
  0 ≤ voxel g z yd xd < width g * height g * depth g.
Proof.
  unfold voxel. intros Hz Hy Hx.
  assert (0 ≤ z * height g + yd ∧ z * height g + yd + 1 ≤ height g * depth g) by nia.
  split; [nia|].
  apply Z.lt_le_trans with ((z * height g + yd + 1) * width g); [lia|].
  replace (width g * height g * depth g) with (height g * depth g * width g) by lia.
  apply Z.mul_le_mono_nonneg_r; lia.
Qed.

Lemma row_decode g row :
  0 < windowWidth g → 0 < windowHeight g → 0 ≤ row < numRows g →
  0 ≤ row_u g row < windowWidth g ∧ 0 ≤ row_v g row < windowHeight g
  ∧ 0 ≤ row_z g row < depth g.
Proof.
  unfold numRows, row_u, row_v, row_z. intros Hw Hh Hrow.
  rewrite (Z.quot_div_nonneg row), (Z.rem_mod_nonneg row) by lia.
  assert (0 ≤ row `div` windowWidth g) by (apply Z.div_pos; lia).
  rewrite Z.quot_div_nonneg, Z.rem_mod_nonneg by lia.
  pose proof (Z.mod_pos_bound row (windowWidth g) Hw).
  pose proof (Z.mod_pos_bound (row `div` windowWidth g) (windowHeight g) Hh).
  assert (row `div` windowWidth g < windowHeight g * depth g).
  { apply Z.div_lt_upper_bound; [done|]. lia. }
  split; [done|]. split; [done|]. split.
  - apply Z.div_pos; lia.
  - apply Z.div_lt_upper_bound; [done|]. lia.
Qed.

End Im2rowForward.

Section Im2rowForwardRow.
Context {T : Type} (zero : T).

Lemma sample_outside g (data : list T) u v z x y :
  ¬ (0 ≤ x_data g u x < width g ∧ 0 ≤ y_data g v y < height g) →
  sample zero g data u v z x y = zero.
Proof. intros H. unfold sample, inside. by rewrite bool_decide_eq_false_2. Qed.

Lemma sample_inside g (data : list T) u v z x y :
  0 ≤ x_data g u x < width g → 0 ≤ y_data g v y < height g →
  sample zero g data u v z x y
  = at_offset zero data (voxel g z (y_data g v y) (x_data g u x)).
Proof. intros Hx Hy. unfold sample, inside. by rewrite bool_decide_eq_true_2. Qed.

Lemma seqZ_three n a b :
  a ≤ n → b ≤ n →
  seqZ 0 n = seqZ 0 (a - 0) ++ seqZ (Z.max 0 a) (b - Z.max 0 a)
             ++ seqZ (Z.max (Z.max 0 a) b) (n - Z.max (Z.max 0 a) b).
Proof.
  intros Ha Hb. rewrite <- (seqZ_max 0 a), <- (seqZ_max (Z.max 0 a) b).
  rewrite (seqZ_split 0 (Z.max 0 a) n) by lia. f_equal.
  rewrite (seqZ_split (Z.max 0 a) (Z.max (Z.max 0 a) b)) by lia.
  do 2 f_equal. lia.
Qed.

Lemma forward_row_spec g nx ny (data : list T) row st :
  0 < strideX g → 0 < strideY g →
  windowWidth g ≠ 0 → windowHeight g ≠ 0 →
  (0 < width g → 0 < height g → 0 ≤ row_z g row < depth g) →
  Z.of_nat (length data) = width g * height g * depth g →
  forward_row zero g nx ny data row st
  = Some (st ++ patch_row zero g nx ny data row).
Proof.
  intros Hsx Hsy Hww Hwh Hz Hlen.
  unfold forward_row, patch_row.
  repeat (rewrite ?Int_div_nonzero, ?Int_rem_nonzero by done;
          progress cbn [mbind option_bind]).
  rewrite !ceil_divide_ceil, !floor_divide_floor by done.
  cbn [mbind option_bind].
  fold (row_u g row) (row_v g row) (row_z g row).
  set (u := row_u g row) in *. set (v := row_v g row) in *.
  set (z := row_z g row) in *.
  set (y0 := static_min ny (- _)). set (y1 := static_min ny (_ + 1)).
  set (x0 := static_min nx (- _)). set (x1 := static_min nx (_ + 1)).
  assert (Hy : ∀ y, Z.max 0 y0 ≤ y < y1 ↔ 0 ≤ y < ny ∧ 0 ≤ y_data g v y < height g).
  { intros y. unfold y0, y1, y_data. apply interval_exact; done. }
  assert (Hx : ∀ x, Z.max 0 x0 ≤ x < x1 ↔ 0 ≤ x < nx ∧ 0 ≤ x_data g u x < width g).
  { intros x. unfold x0, x1, x_data. apply interval_exact; done. }
  assert (Hy0 : y0 ≤ ny) by (unfold y0; rewrite static_min_spec; lia).
  assert (Hy1 : y1 ≤ ny) by (unfold y1; rewrite static_min_spec; lia).
  assert (Hx0 : x0 ≤ nx) by (unfold x0; rewrite static_min_spec; lia).
  assert (Hx1 : x1 ≤ nx) by (unfold x1; rewrite static_min_spec; lia).
  clearbody y0 y1 x0 x1.
  set (L := λ y : Z, seqZ 0 nx ≫= λ x : Z, [sample zero g data u v z x y]).
  assert (Hzero : ∀ y, 0 ≤ y < ny → ¬ (Z.max 0 y0 ≤ y < y1) →
            seqZ 0 (nx - 0) ≫= (λ _, [zero]) = L y).
  { intros y Hyr Hny. unfold L. rewrite Z.sub_0_r. apply bind_ext_seqZ.
    intros x Hxr. rewrite sample_outside; [done|]. rewrite Hy in Hny. lia. }
  rewrite (for_lt_append _ L); cycle 1.
  { intros y st' Hyr. rewrite fill_zero_spec. simpl. rewrite (Hzero y) by lia. done. }
  cbn [mbind option_bind].
  rewrite (for_lt_append _ L); cycle 1.
  { intros y st' Hyr. rewrite fill_zero_spec. cbn [mbind option_bind].
    apply Hy in Hyr as [Hyr Hyd].
    rewrite (copy_loop_spec zero); cycle 1.
    { intros x Hxr. apply Hx in Hxr as [Hxr Hxd].
      rewrite Hlen.
      replace (_ + (x - Z.max 0 x0) * strideX g)
        with (voxel g z (y_data g v y) (x_data g u x))
        by (unfold voxel, y_data, x_data; lia).
      apply voxel_range; [apply Hz; lia|done..]. }
    cbn [mbind option_bind]. rewrite fill_zero_spec. cbn [mbind option_bind].
    f_equal. rewrite <- !app_assoc. f_equal. unfold L.
    rewrite (seqZ_three nx x0 x1) by lia.
    rewrite !bind_app. f_equal; [|f_equal].
    - rewrite Z.sub_0_r. apply bind_ext_seqZ. intros x Hxr.
      rewrite sample_outside; [done|]. intros [Hxd _].
      assert (Z.max 0 x0 ≤ x < x1) by (apply Hx; lia). lia.
    - apply bind_ext_seqZ. intros x Hxr.
      assert (Z.max 0 x0 ≤ x < x1) as Hin by lia. apply Hx in Hin as [? ?].
      rewrite sample_inside by done. do 2 f_equal.
      unfold voxel, y_data, x_data; lia.
    - apply bind_ext_seqZ. intros x Hxr.
      rewrite sample_outside; [done|]. intros [Hxd _].
      assert (Z.max 0 x0 ≤ x < x1) by (apply Hx; lia). lia. }
  cbn [mbind option_bind].
  rewrite (for_lt_append _ L); cycle 1.
  { intros y st' Hyr. rewrite fill_zero_spec. simpl. rewrite (Hzero y) by lia. done. }
  cbn [mbind option_bind]. f_equal. rewrite <- !app_assoc. f_equal.
  rewrite (seqZ_three ny y0 y1) by lia. by rewrite !bind_app.
Qed.

End Im2rowForwardRow.

(** ** Blocks of equal length *)

Lemma length_bind_uniform {A B : Type} (f : A → list B) (k : nat) (l : list A) :
  (∀ a, a ∈ l → length (f a) = k) → length (l ≫= f) = (length l * k)%nat.
Proof.
  induction l as [|a l IH]; intros Hk; [done|].
  rewrite bind_cons, length_app, IH, Hk.
  - simpl. lia.
  - left.
  - intros b Hb. apply Hk. by right.
Qed.

Lemma lookup_bind_uniform {A B : Type} (f : A → list B) (k : nat) (l : list A)
    (i j : nat) :
  (∀ a, a ∈ l → length (f a) = k) → (j < k)%nat →
  (l ≫= f) !! (i * k + j)%nat = l !! i ≫= λ a, f a !! j.
Proof.
  revert i. induction l as [|a l IH]; intros i Hk Hj; [done|].
  rewrite bind_cons. destruct i as [|i].
  - simpl. rewrite lookup_app_l; [done|]. rewrite Hk; [done|left].
  - rewrite lookup_app_r by (rewrite Hk; [lia|left]).
    rewrite Hk by left. replace (S i * k + j - k)%nat with (i * k + j)%nat by lia.
    simpl. apply IH; [|done]. intros b Hb. apply Hk. by right.
Qed.

Lemma to_nat_index a k j :
  0 ≤ a → 0 ≤ k → 0 ≤ j →
  Z.to_nat (a * k + j) = (Z.to_nat a * Z.to_nat k + Z.to_nat j)%nat.
Proof.
  intros. rewrite Z2Nat.inj_add, Z2Nat.inj_mul by first [lia | nia]. done.
Qed.

(** ** [forward] computes the patch matrix *)

Section Im2rowForwardMatrix.
Context {T : Type} (zero : T).

Lemma length_patch_row g nx ny (data : list T) row :
  length (patch_row zero g nx ny data row) = (Z.to_nat ny * Z.to_nat nx)%nat.
Proof.
  unfold patch_row.
  rewrite (length_bind_uniform _ (Z.to_nat nx)), length_seqZ; [done|].
  intros y _. rewrite (length_bind_uniform _ 1%nat), length_seqZ; [lia|done].
Qed.

Lemma lookup_patch_row g nx ny (data : list T) row x y :
  0 ≤ x < nx → 0 ≤ y < ny →
  load (patch_row zero g nx ny data row) (y * nx + x)
  = Some (sample zero g data (row_u g row) (row_v g row) (row_z g row) x y).
Proof.
  intros Hx Hy. unfold load.
  assert (0 ≤ y * nx) by nia.
  destruct (decide (0 ≤ y * nx + x)); [|lia].
  rewrite to_nat_index by lia.
  unfold patch_row. rewrite lookup_bind_uniform; [|..].
  - rewrite lookup_seqZ_lt by lia. simpl.
    replace (Z.to_nat x) with (Z.to_nat x * 1 + 0)%nat by lia.
    rewrite lookup_bind_uniform; [|done|lia].
    rewrite lookup_seqZ_lt by lia. simpl.
    do 2 f_equal; lia.
  - intros y' _. rewrite (length_bind_uniform _ 1%nat), length_seqZ; [lia|done].
  - lia.
Qed.

Lemma rows_positive g row :
  0 ≤ windowWidth g → 0 ≤ windowHeight g → 0 ≤ row < numRows g →
  0 < windowWidth g ∧ 0 < windowHeight g.
Proof.
  unfold numRows. intros Hw Hh Hrow.
  destruct (decide (windowWidth g = 0)) as [E|]; [rewrite E in Hrow; lia|].
  destruct (decide (windowHeight g = 0)) as [E|]; [rewrite E in Hrow; lia|].
  lia.
Qed.

Lemma rows_nonzero g row :
  0 ≤ row < numRows g →
  windowWidth g ≠ 0 ∧ windowHeight g ≠ 0 ∧ depth g ≠ 0.
Proof.
  unfold numRows. intros Hrow.
  repeat split; intros E; rewrite E in Hrow; lia.
Qed.

(** The depth coordinate of a row is a plane of the volume, whatever the
    signs of the window sizes, as soon as the volume has a voxel. *)
Lemma row_z_range g row :
  0 ≤ row < numRows g → 0 ≤ width g * height g * depth g →
  0 < width g → 0 < height g → 0 ≤ row_z g row < depth g.
Proof.
  intros Hrow Hvol Hw Hh.
  destruct (rows_nonzero g row Hrow) as (Hww & Hwh & Hd).
  assert (0 < depth g) as Hd0 by nia.
  assert (0 < windowWidth g * windowHeight g) as Hprod.
  { unfold numRows in Hrow. nia. }
  destruct (decide (0 < windowWidth g)) as [Hpos|Hneg].
  - assert (0 < windowHeight g) by nia.
    by apply row_decode.
  - assert (windowHeight g < 0) by nia.
    set (g' := mkGeometry (width g) (height g) (depth g) (- windowWidth g)
                 (- windowHeight g) (strideX g) (strideY g) (padLeft g)
                 (padRight g) (padTop g) (padBottom g) (dilateX g) (dilateY g)).
    assert (row_z g row = row_z g' row) as ->.
    { unfold row_z. simpl. by rewrite (Z.quot_opp_r row), Z.quot_opp_opp by lia. }
    assert (0 ≤ row < numRows g') as Hrow'.
    { unfold numRows in *. simpl. lia. }
    destruct (row_decode g' row) as (_ & _ & Hz); [simpl; lia..|done|].
    exact Hz.
Qed.

Lemma forward_spec g (data : list T) :
  0 < strideX g → 0 < strideY g →
  Z.of_nat (length data) = width g * height g * depth g →
  forward zero g data = Some (VLE_Success, patch_matrix zero g data).
Proof.
  intros Hsx Hsy Hlen. unfold forward.
  rewrite !Int_div_pos by done. cbn [mbind option_bind].
  fold (numPatchesX g) (numPatchesY g).
  rewrite (for_lt_append _ (patch_row zero g (numPatchesX g) (numPatchesY g) data)).
  - cbn [mbind option_bind]. by rewrite Z.sub_0_r.
  - intros row st Hrow. destruct (rows_nonzero g row Hrow) as (? & ? & _).
    apply forward_row_spec; [done..| |done].
    apply row_z_range; [done|lia].
Qed.

Lemma length_patch_matrix g (data : list T) :
  Z.of_nat (length (patch_matrix zero g data))
  = Z.max 0 (numRows g) * (Z.max 0 (numPatchesX g) * Z.max 0 (numPatchesY g)).
Proof.
  unfold patch_matrix.
  rewrite (length_bind_uniform _ (Z.to_nat (numPatchesY g) * Z.to_nat (numPatchesX g))).
  - rewrite length_seqZ. lia.
  - intros row _. apply length_patch_row.
Qed.

Lemma lookup_patch_matrix g (data : list T) row x y :
  0 ≤ row < numRows g → 0 ≤ x < numPatchesX g → 0 ≤ y < numPatchesY g →
  load (patch_matrix zero g data) (entry_index g row y x)
  = Some (sample zero g data (row_u g row) (row_v g row) (row_z g row) x y).
Proof.
  intros Hrow Hx Hy. rewrite <- (lookup_patch_row g _ _ data row x y Hx Hy).
  unfold load, entry_index.
  assert (0 ≤ y * numPatchesX g) by nia.
  assert (0 ≤ numPatchesX g * numPatchesY g) by nia.
  assert (0 ≤ row * (numPatchesX g * numPatchesY g)) by nia.
  destruct (decide (0 ≤ row * _ + _ + x)); [|lia].
  destruct (decide (0 ≤ y * numPatchesX g + x)); [|lia].
  set (k := (Z.to_nat (numPatchesY g) * Z.to_nat (numPatchesX g))%nat).
  rewrite <- Z.add_assoc, to_nat_index by lia.
  replace (Z.to_nat (numPatchesX g * numPatchesY g)) with k
    by (unfold k; rewrite Z2Nat.inj_mul by lia; lia).
  unfold patch_matrix. rewrite (lookup_bind_uniform _ k).
  - rewrite lookup_seqZ_lt by lia. simpl. do 2 f_equal. lia.
  - intros r _. apply length_patch_row.
  - unfold k. rewrite to_nat_index by lia.
    assert (Z.to_nat y < Z.to_nat (numPatchesY g))%nat by lia.
    assert (Z.to_nat x < Z.to_nat (numPatchesX g))%nat by lia. nia.
Qed.

End Im2rowForwardMatrix.

(** ** Scatter-accumulation *)

Lemma bind_nil_seqZ {B : Type} (f : Z → list B) lo n :
  (∀ i, lo ≤ i < lo + n → f i = []) → seqZ lo n ≫= f = [].
Proof.
  intros H. rewrite (bind_ext_seqZ f (λ _, [])) by done.
  induction (seqZ lo n) as [|a l IH]; [done|]. by rewrite bind_cons, IH.
Qed.

Section Im2rowScatter.
Context {T : Type} (zero : T) (add : T → T → T).

Lemma length_accumulate (data : list T) e :
  length (accumulate add data e) = length data.
Proof. unfold accumulate. case_decide; [apply length_alter|done]. Qed.

Lemma length_scatter events (data : list T) :
  length (scatter add events data) = length data.
Proof.
  revert data. induction events as [|e l IH]; intros data; [done|].
  unfold scatter in *. simpl. rewrite IH. apply length_accumulate.
Qed.

Lemma scatter_app l1 l2 (data : list T) :
  scatter add (l1 ++ l2) data = scatter add l2 (scatter add l1 data).
Proof. apply foldl_app. Qed.

(** [*b += s] on a cell inside the volume. *)
Lemma store_accumulate (data : list T) b s :
  0 ≤ b < Z.of_nat (length data) →
  ∃ d, load data b = Some d
       ∧ store data b (add d s) = Some (accumulate add data (b, s)).
Proof.
  intros Hb. destruct (load_lookup data b Hb) as [d Hd]. exists d.
  split; [done|].
  unfold store. destruct (decide (0 ≤ b < Z.of_nat (length data))); [|lia].
  f_equal. unfold accumulate. simpl.
  unfold load in Hd. destruct (decide (0 ≤ b)); [|lia].
  rewrite list_insert_alter. apply list_alter_ext; [|done].
  intros d' Hd'. congruence.
Qed.

(** The accumulation loop of [backward]:
    [*b += *stacked++ ; b += strideX]. *)
Lemma accumulate_loop_spec (stacked data : list T) s b0 c0 xs x1 :
  (∀ i, xs ≤ i < x1 → 0 ≤ b0 + (i - xs) * s < Z.of_nat (length data)) →
  (∀ i, xs ≤ i < x1 → 0 ≤ c0 + (i - xs) < Z.of_nat (length stacked)) →
  for_lt xs x1
    (λ _ '(data, cur, b),
       v ← load stacked cur;
       d ← load data b;
       data ← store data b (add d v);
       Some (data, cur + 1, b + s))
    (data, c0, b0)
  = Some (Z.max xs x1,
          (scatter add
             (seqZ xs (x1 - xs) ≫= λ i,
                [(b0 + (i - xs) * s, at_offset zero stacked (c0 + (i - xs)))])
             data,
           c0 + (Z.max xs x1 - xs), b0 + (Z.max xs x1 - xs) * s)).
Proof.
  intros Hb Hc.
  pose (F := λ i : Z,
    (scatter add
       (seqZ xs (i - xs) ≫= λ i,
          [(b0 + (i - xs) * s, at_offset zero stacked (c0 + (i - xs)))])
       data,
     c0 + (i - xs), b0 + (i - xs) * s)).
  assert (HF : F xs = (data, c0, b0)).
  { unfold F. rewrite seqZ_nil by lia. simpl. do 2 f_equal; lia. }
  rewrite <- HF. rewrite (for_lt_closed _ F).
  - unfold F. by rewrite seqZ_max.
  - intros i Hi. unfold F.
    rewrite (load_at_offset zero stacked) by (apply Hc; lia). cbn [mbind option_bind].
    match goal with |- context [load ?d ?b ≫= λ x, store _ _ (add x ?v) ≫= _] =>
      destruct (store_accumulate d b v) as (x & -> & Hst);
        [rewrite length_scatter; apply Hb; lia|]
    end.
    cbn [mbind option_bind]. rewrite Hst. cbn [mbind option_bind].
    apply (f_equal Some). apply pair_equal_spec.
    split; [apply pair_equal_spec; split|]; [|lia|lia].
    replace (i + 1 - xs) with ((i - xs) + 1) by lia.
    rewrite seqZ_app by lia. rewrite bind_app, scatter_app.
    replace (xs + (i - xs)) with i by lia.
    rewrite (seqZ_cons i 1), (seqZ_nil (Z.succ i)) by lia. done.
Qed.

(** A loop whose body scatters the events [ev i] and advances the cursor
    by [k]. *)
Lemma for_lt_scatter (body : Z → list T * Z → option (list T * Z))
    (ev : Z → list (Z * T)) lo hi (data0 : list T) c0 k :
  (∀ i d, lo ≤ i < hi → length d = length data0 →
     body i (d, c0 + (i - lo) * k)
     = Some (scatter add (ev i) d, c0 + (i + 1 - lo) * k)) →
  for_lt lo hi body (data0, c0)
  = Some (Z.max lo hi,
          (scatter add (seqZ lo (hi - lo) ≫= ev) data0,
           c0 + (Z.max lo hi - lo) * k)).
Proof.
  intros Hbody.
  pose (F := λ i : Z,
    (scatter add (seqZ lo (i - lo) ≫= ev) data0, c0 + (i - lo) * k)).
  assert (HF : F lo = (data0, c0)).
  { unfold F. rewrite seqZ_nil by lia. simpl. f_equal; lia. }
  rewrite <- HF. rewrite (for_lt_closed _ F).
  - unfold F. by rewrite seqZ_max.
  - intros i Hi. unfold F. rewrite Hbody by (by rewrite ?length_scatter).
    do 2 f_equal.
    replace (i + 1 - lo) with ((i - lo) + 1) by lia.
    rewrite seqZ_app by lia. rewrite bind_app, scatter_app.
    replace (lo + (i - lo)) with i by lia.
    rewrite (seqZ_cons i 1), (seqZ_nil (Z.succ i)) by lia.
    simpl. by rewrite app_nil_r.
Qed.

End Im2rowScatter.

(** ** [backward] scatters the patch matrix *)

Section Im2rowBackward.
Context {T : Type} (zero : T) (add : T → T → T).

Lemma backward_row_spec g nx ny (stacked data : list T) row :
  0 < strideX g → 0 < strideY g →
  windowWidth g ≠ 0 → windowHeight g ≠ 0 → 0 ≤ row →
  (0 < width g → 0 < height g → 0 ≤ row_z g row < depth g) →
  Z.of_nat (length data) = width g * height g * depth g →
  (0 < nx → 0 < ny → (row + 1) * (nx * ny) ≤ Z.of_nat (length stacked)) →
  backward_row add g nx ny stacked row (data, row * (nx * ny))
  = Some (scatter add (row_events zero g nx ny stacked row) data,
          (row + 1) * (nx * ny)).
Proof.
  intros Hsx Hsy Hww Hwh Hrow Hz Hlen Hst.
  unfold backward_row, row_events.
  repeat (rewrite ?Int_div_nonzero, ?Int_rem_nonzero by done;
          progress cbn [mbind option_bind]).
  rewrite !ceil_divide_ceil, !floor_divide_floor by done.
  cbn [mbind option_bind].
  fold (row_u g row) (row_v g row) (row_z g row).
  set (u := row_u g row) in *. set (v := row_v g row) in *.
  set (z := row_z g row) in *.
  set (y0 := static_min ny (- _)). set (y1 := static_min ny (_ + 1)).
  set (x0 := static_min nx (- _)). set (x1 := static_min nx (_ + 1)).
  assert (Hy : ∀ y, Z.max 0 y0 ≤ y < y1 ↔ 0 ≤ y < ny ∧ 0 ≤ y_data g v y < height g).
  { intros y. apply interval_exact; done. }
  assert (Hx : ∀ x, Z.max 0 x0 ≤ x < x1 ↔ 0 ≤ x < nx ∧ 0 ≤ x_data g u x < width g).
  { intros x. apply interval_exact; done. }
  assert (Hy0 : y0 ≤ ny) by (unfold y0; rewrite static_min_spec; lia).
  assert (Hy1 : y1 ≤ ny) by (unfold y1; rewrite static_min_spec; lia).
  assert (Hx0 : x0 ≤ nx) by (unfold x0; rewrite static_min_spec; lia).
  assert (Hx1 : x1 ≤ nx) by (unfold x1; rewrite static_min_spec; lia).
  clearbody y0 y1 x0 x1.
  rewrite !static_max_spec.
  set (ev := λ y : Z, seqZ 0 nx ≫= λ x : Z,
    if inside g u v x y
    then [(voxel g z (y_data g v y) (x_data g u x),
           at_offset zero stacked (row * (nx * ny) + y * nx + x))]
    else []).
  assert (Hout : ∀ y, ¬ (0 ≤ y < ny ∧ 0 ≤ y_data g v y < height g) →
                   0 ≤ y < ny → ev y = []).
  { intros y Hny Hyr. unfold ev. apply bind_nil_seqZ. intros x Hxr.
    unfold inside. rewrite bool_decide_eq_false_2; [done|]. lia. }
  rewrite (for_lt_scatter add _ ev _ _ _ _ nx); cycle 1.
  { intros y d Hyr Hd. apply Hy in Hyr as Hyin. destruct Hyin as [Hyn Hyd].
    rewrite (accumulate_loop_spec zero add); cycle 1.
    { intros x Hxr. apply Hx in Hxr as [Hxr Hxd]. rewrite Hd, Hlen.
      replace (_ + (x - Z.max 0 x0) * strideX g)
        with (voxel g z (y_data g v y) (x_data g u x))
        by (unfold voxel, y_data, x_data; lia).
      apply voxel_range; [apply Hz; lia|done..]. }
    { intros x Hxr. apply Hx in Hxr as [Hxr Hxd].
      assert (0 ≤ nx * ny) by nia. assert (0 ≤ row * (nx * ny)) by nia.
      assert (0 ≤ y * nx) by nia.
      assert (y * nx + x < nx * ny) by nia.
      assert ((row + 1) * (nx * ny) ≤ Z.of_nat (length stacked)) by (apply Hst; lia).
      lia. }
    cbn [mbind option_bind]. f_equal. f_equal; [|lia].
    f_equal. unfold ev.
    rewrite (seqZ_three nx x0 x1) by lia. rewrite !bind_app.
    rewrite (bind_nil_seqZ _ 0), (bind_nil_seqZ _ (Z.max (Z.max 0 x0) x1)).
    - rewrite app_nil_r. simpl. apply bind_ext_seqZ. intros x Hxr.
      assert (Z.max 0 x0 ≤ x < x1) as Hin by lia. apply Hx in Hin as [? ?].
      unfold inside. rewrite bool_decide_eq_true_2 by done.
      do 2 f_equal.
      + unfold voxel, y_data, x_data. lia.
      + f_equal. lia.
    - intros x Hxr. unfold inside. rewrite bool_decide_eq_false_2; [done|].
      intros [Hxd _]. assert (Z.max 0 x0 ≤ x < x1) by (apply Hx; lia). lia.
    - intros x Hxr. unfold inside. rewrite bool_decide_eq_false_2; [done|].
      intros [Hxd _]. assert (Z.max 0 x0 ≤ x < x1) by (apply Hx; lia). lia. }
  cbn [mbind option_bind]. f_equal. f_equal; [|lia].
  f_equal. rewrite (seqZ_three ny y0 y1) by lia. rewrite !bind_app.
  rewrite (bind_nil_seqZ _ 0), (bind_nil_seqZ _ (Z.max (Z.max 0 y0) y1)).
  - by rewrite app_nil_r.
  - intros y Hyr. apply Hout; [|lia]. rewrite <- Hy. lia.
  - intros y Hyr. apply Hout; [|lia]. rewrite <- Hy. lia.
Qed.

Lemma backward_rows_spec g (stacked data : list T) :
  0 < strideX g → 0 < strideY g →
  Z.of_nat (length data) = width g * height g * depth g →
  (0 < numPatchesX g → 0 < numPatchesY g →
   numRows g * (numPatchesX g * numPatchesY g) ≤ Z.of_nat (length stacked)) →
  backward_rows add g (numPatchesX g) (numPatchesY g) stacked data
  = Some (Z.max 0 (numRows g),
          (scatter add (patch_events zero g stacked) data,
           Z.max 0 (numRows g) * (numPatchesX g * numPatchesY g))).
Proof.
  intros Hsx Hsy Hlen Hst. unfold backward_rows, patch_events.
  rewrite (for_lt_scatter add _
    (row_events zero g (numPatchesX g) (numPatchesY g) stacked) _ _ _ _
    (numPatchesX g * numPatchesY g)).
  - by rewrite !Z.sub_0_r, Z.add_0_l.
  - intros row d Hrow Hd. destruct (rows_nonzero g row Hrow) as (? & ? & _).
    replace (0 + (row - 0) * (numPatchesX g * numPatchesY g))
      with (row * (numPatchesX g * numPatchesY g)) by lia.
    replace (0 + (row + 1 - 0) * (numPatchesX g * numPatchesY g))
      with ((row + 1) * (numPatchesX g * numPatchesY g)) by lia.
    apply backward_row_spec; [done..|lia| |lia|].
    { apply row_z_range; [done|lia]. }
    intros Hx Hy. specialize (Hst Hx Hy).
    assert (0 ≤ numPatchesX g * numPatchesY g) by nia. nia.
Qed.

Lemma backward_spec g (stacked data : list T) :
  0 < strideX g → 0 < strideY g →
  Z.of_nat (length data) = width g * height g * depth g →
  (0 < numPatchesX g → 0 < numPatchesY g →
   numRows g * (numPatchesX g * numPatchesY g) ≤ Z.of_nat (length stacked)) →
  backward zero add g data stacked
  = Some (VLE_Success,
          scatter add (patch_events zero g stacked)
            (replicate (length data) zero)).
Proof.
  intros Hsx Hsy Hlen Hst. unfold backward.
  rewrite !Int_div_pos by done. cbn [mbind option_bind].
  fold (numPatchesX g) (numPatchesY g).
  unfold memset_zero. rewrite <- Hlen.
  destruct (decide _) as [_|]; [|lia]. cbn [mbind option_bind].
  rewrite Nat2Z.id, drop_all, app_nil_r.
  rewrite (backward_rows_spec g) by (rewrite ?length_replicate; done).
  done.
Qed.

Lemma load_accumulate (data : list T) e c :
  0 ≤ c →
  load (accumulate add data e) c
  = (λ d, if decide (e.1 = c) then add d e.2 else d) <$> load data c.
Proof.
  intros Hc. unfold accumulate, load.
  destruct (decide (0 ≤ c)); [|lia].
  destruct (decide (0 ≤ e.1)).
  - destruct (decide (e.1 = c)) as [->|Hne].
    + by rewrite list_lookup_alter_eq.
    + rewrite list_lookup_alter_ne by lia. by destruct (data !! _).
  - destruct (decide (e.1 = c)); [lia|]. by destruct (data !! _).
Qed.

(** Every voxel receives its contributions in the order of the events. *)
Lemma load_scatter events (data : list T) c :
  0 ≤ c →
  load (scatter add events data) c
  = (λ d, foldl add d (contributions events c)) <$> load data c.
Proof.
  intros Hc. revert data. induction events as [|e l IH]; intros data.
  - simpl. by destruct (load data c).
  - unfold scatter in *. simpl. rewrite IH, load_accumulate by done.
    unfold contributions. rewrite filter_cons.
    destruct (load data c) as [d|]; [|done]. simpl.
    destruct (decide (e.1 = c)); done.
Qed.

(** Whatever the geometry and the buffers, a row of [backward] that
    returns has advanced the cursor by [numPatchesX * numPatchesY]. *)
Lemma backward_row_cursor g nx ny (stacked : list T) row st st' :
  backward_row add g nx ny stacked row st = Some st' →
  st'.2 = st.2 + nx * ny.
Proof.
  destruct st as [data cur]. unfold backward_row.
  destruct (Int_div row _) as [v|]; cbn [mbind option_bind]; [|done].
  destruct (Int_div v _) as [z|]; cbn [mbind option_bind]; [|done].
  destruct (Int_rem row _) as [u|]; cbn [mbind option_bind]; [|done].
  destruct (Int_rem v _) as [v'|]; cbn [mbind option_bind]; [|done].
  destruct (ceil_divide (padLeft g - _) _) as [cx|]; cbn [mbind option_bind]; [|done].
  destruct (ceil_divide (padTop g - _) _) as [cy|]; cbn [mbind option_bind]; [|done].
  destruct (floor_divide (width g + _ - _ - 1) _) as [fx|]; cbn [mbind option_bind]; [|done].
  destruct (floor_divide (height g + _ - _ - 1) _) as [fy|]; cbn [mbind option_bind]; [|done].
  rewrite !static_max_spec.
  set (y0 := static_min ny cy). set (y1 := static_min ny (fy + 1)).
  set (x0 := static_min nx cx). set (x1 := static_min nx (fx + 1)).
  set (c0 := cur + nx * Z.max 0 (Z.max 0 y0)).
  destruct (for_lt (Z.max 0 y0) y1 _ _) as [[y [d c]]|] eqn:Hloop; [|done].
  cbn [mbind option_bind]. intros [= <-]. simpl.
  apply (for_lt_inv (λ y (s : list T * Z), s.2 = c0 + (y - Z.max 0 y0) * nx)) in Hloop
    as [Hy Hc].
  - simpl in Hy, Hc. subst y c. unfold c0. lia.
  - intros y' [d1 c1] [d2 c2] Hy' Hc1. simpl in Hc1. subst c1.
    destruct (for_lt (Z.max 0 x0) x1 _ _) as [[x [[d3 c3] b3]]|] eqn:Hin; [|done].
    cbn [mbind option_bind]. intros [= <- <-]. simpl.
    apply (for_lt_inv (λ x (s : list T * Z * Z),
             s.1.2 = c0 + (y' - Z.max 0 y0) * nx + Z.max 0 x0 + (x - Z.max 0 x0))) in Hin
      as [Hx Hc3].
    + simpl in Hx, Hc3. subst x c3. lia.
    + intros x' [[d4 c4] b4] [[d5 c5] b5] Hx' Hc4. simpl in Hc4. subst c4.
      destruct (load stacked _); cbn [mbind option_bind]; [|done].
      destruct (load d4 _); cbn [mbind option_bind]; [|done].
      destruct (store d4 _ _); cbn [mbind option_bind]; [|done].
      intros [= <- <- <-]. simpl. lia.
    + simpl. lia.
  - simpl. lia.
Qed.

End Im2rowBackward.

(** ** At most one *)

Lemma filter_bind_at_most_one {A B : Type} (P : B → Prop)
    `{∀ b, Decision (P b)} (f : A → list B) (l : list A) :
  NoDup l →
  (∀ a, a ∈ l → (length (filter P (f a)) ≤ 1)%nat) →
  (∀ a a' b b',
     a ∈ l → a' ∈ l → b ∈ f a → P b → b' ∈ f a' → P b' → a = a') →
  (length (filter P (l ≫= f)) ≤ 1)%nat.
Proof.
  induction l as [|a l IH]; intros Hnd Hone Huniq; [simpl; lia|].
  apply NoDup_cons in Hnd as [Hnotin Hnd].
  rewrite bind_cons, filter_app, length_app.
  destruct (filter P (f a)) as [|b rest'] eqn:Hfa.
  - simpl. apply IH; [done| |].
    + intros a0 Ha0. apply Hone. by right.
    + intros a1 a2 b1 b2 H1 H2. apply Huniq; by right.
  - assert (Hb : b ∈ filter P (f a)) by (rewrite Hfa; left).
    apply list_elem_of_filter in Hb as [HPb Hb].
    destruct (filter P (l ≫= f)) as [|b' rest] eqn:Hrest.
    + rewrite Nat.add_0_r, <- Hfa. apply Hone. left.
    + assert (Hb' : b' ∈ filter P (l ≫= f)) by (rewrite Hrest; left).
      apply list_elem_of_filter in Hb' as [HPb' Hb'].
      apply list_elem_of_bind in Hb' as (a' & Hb'a' & Ha').
      assert (a = a') as -> by (apply (Huniq a a' b b'); [left|by right|done..]).
      done.
Qed.

Lemma mixed_radix_unique a b a' b' w :
  0 ≤ b < w → 0 ≤ b' < w → a * w + b = a' * w + b' → a = a' ∧ b = b'.
Proof. intros Hb Hb' Heq. assert (a = a') by nia. subst. lia. Qed.

Lemma voxel_unique g z yd xd z' yd' xd' :
  0 ≤ xd < width g → 0 ≤ yd < height g →
  0 ≤ xd' < width g → 0 ≤ yd' < height g →
  voxel g z yd xd = voxel g z' yd' xd' → z = z' ∧ yd = yd' ∧ xd = xd'.
Proof.
  unfold voxel. intros Hx Hy Hx' Hy' Heq.
  apply mixed_radix_unique in Heq as [Heq ->]; [|done..].
  apply mixed_radix_unique in Heq as [-> ->]; done.
Qed.

(** Two samples of non-overlapping patches that hit the same coordinate come
    from the same patch and the same window offset. *)
Lemma sample_unique stride dilate window pad x u x' u' :
  0 < dilate → (window - 1) * dilate + 1 ≤ stride →
  0 ≤ u < window → 0 ≤ u' < window →
  x * stride + u * dilate - pad = x' * stride + u' * dilate - pad →
  x = x' ∧ u = u'.
Proof.
  intros Hd Hs Hu Hu' Heq.
  assert (0 ≤ u * dilate < stride) by nia.
  assert (0 ≤ u' * dilate < stride) by nia.
  assert (x * stride + u * dilate = x' * stride + u' * dilate) as Heq' by lia.
  apply mixed_radix_unique in Heq' as [-> Heq']; [|done..].
  split; [done|]. nia.
Qed.

Lemma row_decompose g row :
  0 < windowWidth g → 0 < windowHeight g →
  row = row_index g (row_u g row) (row_v g row) (row_z g row).
Proof.
  intros Hw Hh. unfold row_index, row_u, row_v, row_z.
  pose proof (Z.quot_rem' row (windowWidth g)) as H1.
  pose proof (Z.quot_rem' (Z.quot row (windowWidth g)) (windowHeight g)) as H2.
  set (q := Z.quot row (windowWidth g)) in *.
  rewrite H1 at 1. rewrite H2 at 1. lia.
Qed.

Lemma elem_of_touches_row g row y c :
  c ∈ (seqZ 0 (numPatchesX g) ≫= λ x,
         if inside g (row_u g row) (row_v g row) x y
         then [voxel g (row_z g row) (y_data g (row_v g row) y)
                 (x_data g (row_u g row) x)]
         else []) →
  ∃ x, 0 ≤ x < numPatchesX g
       ∧ 0 ≤ x_data g (row_u g row) x < width g
       ∧ 0 ≤ y_data g (row_v g row) y < height g
       ∧ c = voxel g (row_z g row) (y_data g (row_v g row) y)
               (x_data g (row_u g row) x).
Proof.
  intros (x & Hc & Hx)%list_elem_of_bind. exists x.
  apply elem_of_seqZ in Hx. unfold inside in Hc.
  case_bool_decide as Hin; [|by apply not_elem_of_nil in Hc].
  apply list_elem_of_singleton in Hc. split; [lia|]. tauto.
Qed.

Lemma coverage_at_most_one g c :
  0 < strideX g → 0 < strideY g → 0 < dilateX g → 0 < dilateY g →
  0 ≤ windowWidth g → 0 ≤ windowHeight g →
  windowExtentX g ≤ strideX g → windowExtentY g ≤ strideY g →
  (coverage g c ≤ 1)%nat.
Proof.
  intros Hsx Hsy Hdx Hdy Hww Hwh Hex Hey. unfold coverage, touches.
  apply filter_bind_at_most_one; [apply NoDup_seqZ| |].
  - intros row Hrow. apply filter_bind_at_most_one; [apply NoDup_seqZ| |].
    + intros y Hy. apply filter_bind_at_most_one; [apply NoDup_seqZ| |].
      * intros x Hx. destruct (inside _ _ _ _ _); [|simpl; lia].
        rewrite filter_cons. case_decide; simpl; lia.
      * intros x x' b b' Hx Hx' Hb -> Hb' Heq.
        destruct (inside g _ _ x y) eqn:Hin; [|by apply not_elem_of_nil in Hb].
        destruct (inside g _ _ x' y) eqn:Hin'; [|by apply not_elem_of_nil in Hb'].
        apply list_elem_of_singleton in Hb, Hb'. subst.
        apply bool_decide_eq_true in Hin as [? ?], Hin' as [? ?].
        apply voxel_unique in Heq as (_ & _ & Heq); [|done..].
        unfold x_data in Heq. nia.
    + intros y y' b b' Hy Hy' Hb -> Hb' Heq.
      apply elem_of_touches_row in Hb as (x & ? & ? & ? & ->).
      apply elem_of_touches_row in Hb' as (x' & ? & ? & ? & Heq').
      rewrite Heq in Heq'.
      apply voxel_unique in Heq' as (_ & Heq' & _); [|done..].
      unfold y_data in Heq'. nia.
  - intros row row' b b' Hrow Hrow' Hb -> Hb' Heq.
    apply elem_of_seqZ in Hrow, Hrow'.
    destruct (rows_positive g row Hww Hwh) as [Hw0 Hh0]; [lia|].
    destruct (row_decode g row Hw0 Hh0) as (Hu & Hv & Hz); [lia|].
    destruct (row_decode g row' Hw0 Hh0) as (Hu' & Hv' & Hz'); [lia|].
    apply list_elem_of_bind in Hb as (y & Hb & Hy).
    apply list_elem_of_bind in Hb' as (y' & Hb' & Hy').
    apply elem_of_touches_row in Hb as (x & ? & ? & ? & ->).
    apply elem_of_touches_row in Hb' as (x' & ? & ? & ? & Heq').
    rewrite Heq in Heq'.
    apply voxel_unique in Heq' as (Hzz & Hyy & Hxx); [|done..].
    apply (sample_unique _ _ (windowWidth g)) in Hxx as [_ Huu]; [|done..].
    apply (sample_unique _ _ (windowHeight g)) in Hyy as [_ Hvv]; [|done..].
    rewrite (row_decompose g row), (row_decompose g row') by done.
    by rewrite Hzz, Hvv, Huu.
Qed.

(** ** [forward] followed by [backward] *)

Lemma fmap_bind_seqZ {B C : Type} (h : B → C) (f : Z → list B) lo n :
  h <$> (seqZ lo n ≫= f) = seqZ lo n ≫= λ i, h <$> f i.
Proof.
  induction (seqZ lo n) as [|a l IH]; [done|].
  by rewrite !bind_cons, fmap_app, IH.
Qed.

Section Im2rowRoundTrip.
Context {T : Type} (zero : T) (add : T → T → T).

(** The events of the patch matrix of a volume carry the value of the
    voxel they hit. *)
Lemma patch_events_of_patch_matrix g (V : list T) :
  patch_events zero g (patch_matrix zero g V)
  = (λ c, (c, at_offset zero V c)) <$> touches g.
Proof.
  unfold patch_events, touches. rewrite fmap_bind_seqZ.
  apply bind_ext_seqZ. intros row Hrow. unfold row_events.
  rewrite fmap_bind_seqZ. apply bind_ext_seqZ. intros y Hy.
  rewrite fmap_bind_seqZ. apply bind_ext_seqZ. intros x Hx.
  destruct (inside g _ _ x y) eqn:Hin; [|done]. simpl. do 2 f_equal.
  unfold at_offset at 1.
  pose proof (lookup_patch_matrix zero g V row x y) as Hl.
  unfold entry_index in Hl. rewrite Hl by lia. simpl.
  unfold sample. by rewrite Hin.
Qed.

Lemma contributions_fmap (h : Z → T) (l : list Z) c :
  contributions ((λ c, (c, h c)) <$> l) c
  = replicate (length (filter (λ c', c' = c) l)) (h c).
Proof.
  unfold contributions. induction l as [|a l IH]; [done|].
  rewrite fmap_cons, !filter_cons. simpl.
  destruct (decide (a = c)) as [->|]; simpl; [f_equal|]; apply IH.
Qed.

Lemma length_patch_matrix_enough g (V : list T) :
  0 < numPatchesX g → 0 < numPatchesY g →
  numRows g * (numPatchesX g * numPatchesY g)
  ≤ Z.of_nat (length (patch_matrix zero g V)).
Proof.
  intros Hx Hy. rewrite length_patch_matrix.
  assert (0 < numPatchesX g * numPatchesY g) by nia.
  rewrite (Z.max_r 0 (numPatchesX g)), (Z.max_r 0 (numPatchesY g)) by lia.
  destruct (Z.max_spec 0 (numRows g)) as [[? ->]|[? ->]]; [lia|nia].
Qed.

(** [forward] followed by [backward]: every voxel holds its own value
    added to zero once for every sample that hits it. *)
Lemma roundtrip_spec g (V data : list T) :
  0 < strideX g → 0 < strideY g → 0 ≤ windowWidth g → 0 ≤ windowHeight g →
  Z.of_nat (length V) = width g * height g * depth g →
  Z.of_nat (length data) = width g * height g * depth g →
  ∃ stacked V',
    forward zero g V = Some (VLE_Success, stacked)
    ∧ backward zero add g data stacked = Some (VLE_Success, V')
    ∧ ∀ c v, load V c = Some v →
        load V' c = Some (foldl add zero (replicate (coverage g c) v)).
Proof.
  intros Hsx Hsy Hww Hwh HV Hdata.
  exists (patch_matrix zero g V).
  exists (scatter add (patch_events zero g (patch_matrix zero g V))
            (replicate (length data) zero)).
  split; [by apply forward_spec|].
  split; [apply backward_spec; try done; apply length_patch_matrix_enough|].
  intros c v Hc.
  assert (0 ≤ c < Z.of_nat (length V)) as Hcr.
  { unfold load in Hc. destruct (decide (0 ≤ c)); [|done].
    apply lookup_lt_Some in Hc. lia. }
  rewrite load_scatter by lia.
  rewrite (load_at_offset zero (replicate _ _)) by (rewrite length_replicate; lia).
  simpl. f_equal.
  rewrite patch_events_of_patch_matrix, contributions_fmap.
  unfold coverage, at_offset. rewrite Hc. simpl.
  unfold at_offset, load. destruct (decide (0 ≤ c)); [|lia].
  rewrite lookup_replicate_2 by lia. done.
Qed.

End Im2rowRoundTrip.

(** ** Main results on im2row *)

Lemma row_index_range g u v z :
  0 ≤ u < windowWidth g → 0 ≤ v < windowHeight g → 0 ≤ z < depth g →
  0 ≤ row_index g u v z < numRows g.
Proof.
  unfold row_index, numRows. intros Hu Hv Hz.
  assert (0 ≤ z * windowHeight g + v
          ∧ z * windowHeight g + v + 1 ≤ depth g * windowHeight g) as [? ?] by nia.
  split; [nia|].
  apply Z.lt_le_trans with ((z * windowHeight g + v + 1) * windowWidth g); [lia|].
  replace (windowWidth g * windowHeight g * depth g)
    with (depth g * windowHeight g * windowWidth g) by lia.
  apply Z.mul_le_mono_nonneg_r; lia.
Qed.

Lemma row_index_decode g u v z :
  0 ≤ u < windowWidth g → 0 ≤ v < windowHeight g → 0 ≤ z →
  row_u g (row_index g u v z) = u ∧ row_v g (row_index g u v z) = v
  ∧ row_z g (row_index g u v z) = z.
Proof.
  unfold row_index, row_u, row_v, row_z. intros Hu Hv Hz.
  assert (0 ≤ z * windowHeight g + v) by nia.
  assert (0 ≤ (z * windowHeight g + v) * windowWidth g + u) by nia.
  rewrite (Z.rem_mod_nonneg ((z * windowHeight g + v) * windowWidth g + u)),
    (Z.quot_div_nonneg ((z * windowHeight g + v) * windowWidth g + u)) by lia.
  assert (((z * windowHeight g + v) * windowWidth g + u) `div` windowWidth g
          = z * windowHeight g + v) as ->.
  { apply floor_unique; lia. }
  rewrite Z.rem_mod_nonneg, Z.quot_div_nonneg by lia.
  split; [|split].
  - symmetry. apply Z.mod_unique_pos with (q := z * windowHeight g + v); lia.
  - symmetry. apply Z.mod_unique_pos with (q := z); lia.
  - apply floor_unique; lia.
Qed.

Lemma valid_x_exact g u x :
  0 < strideX g → 0 ≤ x < numPatchesX g →
  valid_x0 g u ≤ x < valid_x1 g u ↔ 0 ≤ x_data g u x < width g.
Proof.
  intros Hs Hx. unfold valid_x0, valid_x1.
  rewrite ceil_divide_ceil, floor_divide_floor by done. simpl.
  pose proof (interval_exact (numPatchesX g) (width g) (padLeft g)
                (u * dilateX g) (strideX g) x Hs) as Hi.
  unfold x_data. lia.
Qed.

Lemma valid_y_exact g v y :
  0 < strideY g → 0 ≤ y < numPatchesY g →
  valid_y0 g v ≤ y < valid_y1 g v ↔ 0 ≤ y_data g v y < height g.
Proof.
  intros Hs Hy. unfold valid_y0, valid_y1.
  rewrite ceil_divide_ceil, floor_divide_floor by done. simpl.
  pose proof (interval_exact (numPatchesY g) (height g) (padTop g)
                (v * dilateY g) (strideY g) y Hs) as Hi.
  unfold y_data. lia.
Qed.



Section Im2rowForwardResult.
Context {T : Type} (zero : T) (add : T → T → T).


End Im2rowForwardResult.


Lemma entry_index_range g row x y :
  0 ≤ row < numRows g → 0 ≤ x < numPatchesX g → 0 ≤ y < numPatchesY g →
  0 ≤ entry_index g row y x < numRows g * (numPatchesX g * numPatchesY g).
Proof.
  unfold entry_index. intros Hrow Hx Hy.
  assert (0 ≤ y * numPatchesX g + x
          ∧ y * numPatchesX g + x + 1 ≤ numPatchesX g * numPatchesY g) as [? ?] by nia.
  assert (0 ≤ row * (numPatchesX g * numPatchesY g)) by nia.
  split; [lia|].
  apply Z.lt_le_trans with ((row + 1) * (numPatchesX g * numPatchesY g)); [lia|].
  apply Z.mul_le_mono_nonneg_r; lia.
Qed.

Section Im2rowResults.
Context {T : Type} (zero : T) (add : T → T → T).

Lemma elem_of_patch_events g (stacked : list T) e :
  0 ≤ windowWidth g → 0 ≤ windowHeight g →
  numRows g * (numPatchesX g * numPatchesY g) ≤ Z.of_nat (length stacked) →
  e ∈ patch_events zero g stacked ↔
  ∃ u v z x y s,
    0 ≤ u < windowWidth g ∧ 0 ≤ v < windowHeight g ∧ 0 ≤ z < depth g
    ∧ 0 ≤ x < numPatchesX g ∧ 0 ≤ y < numPatchesY g
    ∧ inside g u v x y = true
    ∧ load stacked (entry_index g (row_index g u v z) y x) = Some s
    ∧ e = (voxel g z (y_data g v y) (x_data g u x), s).
Proof.
  intros Hww Hwh Hlen. unfold patch_events, row_events. split.
  - intros (row & He & Hrow)%list_elem_of_bind.
    apply list_elem_of_bind in He as (y & He & Hy).
    apply list_elem_of_bind in He as (x & He & Hx).
    apply elem_of_seqZ in Hrow, Hy, Hx.
    destruct (inside g _ _ x y) eqn:Hin; [|by apply not_elem_of_nil in He].
    apply list_elem_of_singleton in He.
    destruct (rows_positive g row Hww Hwh) as [Hw0 Hh0]; [lia|].
    destruct (row_decode g row Hw0 Hh0) as (Hu & Hv & Hz); [lia|].
    exists (row_u g row), (row_v g row), (row_z g row), x, y.
    eexists. rewrite <- (row_decompose g row) by done.
    repeat (split; [done || lia|]). split; [|done].
    apply load_at_offset. unfold entry_index.
    pose proof (entry_index_range g row x y). unfold entry_index in *. lia.
  - intros (u & v & z & x & y & s & Hu & Hv & Hz & Hx & Hy & Hin & Hs & ->).
    pose proof (row_index_range g u v z Hu Hv Hz) as Hrow.
    destruct (row_index_decode g u v z Hu Hv) as (Eu & Ev & Ez); [lia|].
    apply list_elem_of_bind. exists (row_index g u v z).
    split; [|apply elem_of_seqZ; lia].
    apply list_elem_of_bind. exists y. split; [|apply elem_of_seqZ; lia].
    apply list_elem_of_bind. exists x. split; [|apply elem_of_seqZ; lia].
    rewrite Eu, Ev, Ez, Hin. apply list_elem_of_singleton. f_equal.
    unfold at_offset. unfold entry_index in Hs. by rewrite Hs.
Qed.



Lemma forward_status g (data : list T) r :
  forward zero g data = Some r → r.1 = VLE_Success.
Proof.
  unfold forward.
  destruct (Int_div (width g + _ + _ - _) _); cbn [mbind option_bind]; [|done].
  destruct (Int_div (height g + _ + _ - _) _); cbn [mbind option_bind]; [|done].
  destruct (for_lt _ _ _ _) as [[? ?]|]; cbn [mbind option_bind]; [|done].
  by intros [= <-].
Qed.

Lemma backward_status g (data stacked : list T) r :
  backward zero add g data stacked = Some r → r.1 = VLE_Success.
Proof.
  unfold backward.
  destruct (Int_div (width g + _ + _ - _) _); cbn [mbind option_bind]; [|done].
  destruct (Int_div (height g + _ + _ - _) _); cbn [mbind option_bind]; [|done].
  destruct (memset_zero _ _ _); cbn [mbind option_bind]; [|done].
  destruct (backward_rows _ _ _ _ _ _) as [[? [? ?]]|]; cbn [mbind option_bind]; [|done].
  by intros [= <-].
Qed.



End Im2rowResults.







(** ** Further results on im2row *)

(** *** The size of the patch matrix *)

Lemma quot_count_nonpos a s :
  0 < s → Z.quot a s + 1 ≤ 0 ↔ a ≤ - s.
Proof.
  intros Hs. destruct (decide (0 ≤ a)) as [Ha|Ha].
  - pose proof (Z.quot_pos a s Ha Hs). lia.
  - replace a with (- - a) at 1 by lia. rewrite Z.quot_opp_l by lia.
    rewrite Z.quot_div_nonneg by lia.
    split; intros H.
    + assert (1 ≤ (- a) `div` s) as H1 by lia.
      destruct (decide (- a < s)) as [Hlt|]; [|lia].
      rewrite Z.div_small in H1 by lia. lia.
    + assert (1 ≤ (- a) `div` s); [|lia].
      apply Z.div_le_lower_bound; lia.
Qed.

Lemma last_patch_fits a s :
  0 < s → 0 ≤ a → Z.quot a s * s ≤ a < (Z.quot a s + 1) * s.
Proof.
  intros Hs Ha. rewrite Z.quot_div_nonneg by lia.
  pose proof (Z.mul_div_le a s Hs).
  pose proof (Z.mul_succ_div_gt a s Hs). lia.
Qed.

Section Im2rowEdges.
Context {T : Type} (zero : T) (add : T → T → T).





End Im2rowEdges.

(** *** Maps of the element type *)

Section LoopMaps.
Context {S S' : Type} (f : S → S').

Lemma iterM_map (body : Z → S → option S) (body' : Z → S' → option S') xs s :
  (∀ x s, body' x (f s) = f <$> body x s) →
  iterM body' xs (f s) = f <$> iterM body xs s.
Proof.
  intros H. revert s. induction xs as [|x xs IH]; intros s; [done|].
  simpl. rewrite H. destruct (body x s) as [s1|]; simpl; [apply IH|done].
Qed.

Lemma for_lt_map (body : Z → S → option S) (body' : Z → S' → option S') x hi s :
  (∀ x s, body' x (f s) = f <$> body x s) →
  for_lt x hi body' (f s) = prod_map id f <$> for_lt x hi body s.
Proof.
  intros H. unfold for_lt. rewrite (iterM_map body body') by done.
  by destruct (iterM body _ s).
Qed.

End LoopMaps.

Section ForwardMap.
Context {T U : Type} (zero : T) (zero' : U) (h : T → U).
Hypothesis h_zero : h zero = zero'.

Local Abbreviation hs := (fmap (M := list) h).

Lemma fill_zero_map x hi (st : list T) :
  fill_zero zero' x hi (h <$> st) = prod_map id hs <$> fill_zero zero x hi st.
Proof.
  unfold fill_zero. apply (for_lt_map hs).
  intros _ s. simpl. by rewrite fmap_app, <- h_zero.
Qed.

Lemma load_fmap (data : list T) b : load (h <$> data) b = h <$> load data b.
Proof. unfold load. case_decide; [apply list_lookup_fmap|done]. Qed.

Lemma fill_rows_map nx y hi (st : list T) :
  for_lt y hi (λ _ stacked, snd <$> fill_zero zero' 0 nx stacked) (h <$> st)
  = prod_map id hs
      <$> for_lt y hi (λ _ stacked, snd <$> fill_zero zero 0 nx stacked) st.
Proof.
  apply (for_lt_map hs). intros _ s. rewrite fill_zero_map.
  by destruct (fill_zero zero 0 nx s) as [[? ?]|].
Qed.

Lemma forward_row_map g nx ny (data : list T) row st :
  forward_row zero' g nx ny (h <$> data) row (h <$> st)
  = hs <$> forward_row zero g nx ny data row st.
Proof.
  unfold forward_row.
  destruct (Int_div row _) as [v|]; cbn [mbind option_bind]; [|done].
  destruct (Int_div v _) as [z|]; cbn [mbind option_bind]; [|done].
  destruct (Int_rem row _) as [u|]; cbn [mbind option_bind]; [|done].
  destruct (Int_rem v _) as [v'|]; cbn [mbind option_bind]; [|done].
  destruct (ceil_divide (padLeft g - _) _) as [cx|]; cbn [mbind option_bind]; [|done].
  destruct (ceil_divide (padTop g - _) _) as [cy|]; cbn [mbind option_bind]; [|done].
  destruct (floor_divide (width g + _ - _ - 1) _) as [fx|]; cbn [mbind option_bind]; [|done].
  destruct (floor_divide (height g + _ - _ - 1) _) as [fy|]; cbn [mbind option_bind]; [|done].
  rewrite fill_rows_map.
  destruct (for_lt 0 _ _ st) as [[y st1]|];
    cbn [fmap option_fmap option_map mbind option_bind prod_map fst snd id]; [|done].
  rewrite (for_lt_map hs (λ y stacked,
         '(x, stacked) ← fill_zero zero 0 (static_min nx cx) stacked;
         let y_data := y * strideY g + v' * dilateY g - padTop g in
         let x_data := x * strideX g + u * dilateX g - padLeft g in
         let b := (z * height g + y_data) * width g + x_data in
         '(x, (stacked, b)) ← for_lt x (static_min nx (fx + 1))
             (λ _ '(stacked, b),
                val ← load data b;
                Some (stacked ++ [val], b + strideX g))
             (stacked, b);
         '(x, stacked) ← fill_zero zero x nx stacked;
         Some stacked)).
  - destruct (for_lt y _ _ st1) as [[y' st2]|];
      cbn [fmap option_fmap option_map mbind option_bind prod_map fst snd id]; [|done].
    rewrite fill_rows_map.
    by destruct (for_lt y' _ _ st2) as [[y'' st3]|].
  - intros y0 s. rewrite fill_zero_map.
    destruct (fill_zero zero 0 _ s) as [[x s1]|];
      cbn [fmap option_fmap option_map mbind option_bind prod_map fst snd id]; [|done].
    match goal with
    | |- context [for_lt x ?hi ?body (h <$> s1, ?b)] =>
        change (for_lt x hi body (h <$> s1, b))
          with (for_lt x hi body (prod_map hs id (s1, b)))
    end.
    rewrite (for_lt_map (prod_map hs id) (λ _ '(stacked, b),
                val ← load data b;
                Some (stacked ++ [val], b + strideX g))
              _ _ _ (s1, _)).
    + destruct (for_lt x _ _ (s1, _)) as [[x' [s2 b2]]|];
        cbn [fmap option_fmap option_map mbind option_bind prod_map fst snd id]; [|done].
      rewrite fill_zero_map.
      by destruct (fill_zero zero x' nx s2) as [[? ?]|].
    + intros _ [s2 b2]. simpl. rewrite load_fmap.
      destruct (load data b2); simpl; [|done]. by rewrite fmap_app.
Qed.


End ForwardMap.

Section BackwardMap.
Context {T U : Type} (zero : T) (add : T → T → T) (zero' : U) (add' : U → U → U).
Context (h : T → U).
Hypothesis h_zero : h zero = zero'.
Hypothesis h_add : ∀ a b, h (add a b) = add' (h a) (h b).

Local Abbreviation hs := (fmap (M := list) h).

Lemma store_fmap (data : list T) b x :
  store (h <$> data) b (h x) = hs <$> store data b x.
Proof.
  unfold store. rewrite length_fmap. case_decide; [|done].
  simpl. by rewrite list_fmap_insert.
Qed.

Lemma memset_zero_map (data : list T) n :
  memset_zero zero' (h <$> data) n = hs <$> memset_zero zero data n.
Proof.
  unfold memset_zero. rewrite length_fmap. case_decide; [|done].
  simpl. by rewrite fmap_app, fmap_replicate, fmap_drop, h_zero.
Qed.

Lemma backward_row_map g nx ny (stacked data : list T) row cur :
  backward_row add' g nx ny (h <$> stacked) row (h <$> data, cur)
  = prod_map hs id <$> backward_row add g nx ny stacked row (data, cur).
Proof.
  unfold backward_row.
  destruct (Int_div row _) as [v|]; cbn [mbind option_bind]; [|done].
  destruct (Int_div v _) as [z|]; cbn [mbind option_bind]; [|done].
  destruct (Int_rem row _) as [u|]; cbn [mbind option_bind]; [|done].
  destruct (Int_rem v _) as [v'|]; cbn [mbind option_bind]; [|done].
  destruct (ceil_divide (padLeft g - _) _) as [cx|]; cbn [mbind option_bind]; [|done].
  destruct (ceil_divide (padTop g - _) _) as [cy|]; cbn [mbind option_bind]; [|done].
  destruct (floor_divide (width g + _ - _ - 1) _) as [fx|]; cbn [mbind option_bind]; [|done].
  destruct (floor_divide (height g + _ - _ - 1) _) as [fy|]; cbn [mbind option_bind]; [|done].
  cbv zeta.
  match goal with
  | |- context [for_lt ?y ?hi ?body (h <$> data, ?c)] =>
      change (for_lt y hi body (h <$> data, c))
        with (for_lt y hi body (prod_map hs id (data, c)))
  end.
  rewrite (for_lt_map (prod_map hs id)
    (λ y '(data, cur),
         let x := static_max 0 (static_min nx cx) in
         let y_data := y * strideY g + v' * dilateY g - padTop g in
         let x_data := x * strideX g + u * dilateX g - padLeft g in
         let b := (z * height g + y_data) * width g + x_data in
         let cur := cur + x in
         '(x, (data, cur, b)) ← for_lt x (static_min nx (fx + 1))
             (λ _ '(data, cur, b),
                s ← load stacked cur;
                d ← load data b;
                data ← store data b (add d s);
                Some (data, cur + 1, b + strideX g))
             (data, cur, b);
         let cur := cur + (nx - x) in
         Some (data, cur))).
  - by destruct (for_lt _ _ _ (data, _)) as [[y [d c]]|].
  - intros y [d c]. cbv zeta. cbn [prod_map fst snd id].
    match goal with
    | |- context [for_lt ?x ?hi ?body (h <$> d, ?c, ?b)] =>
        change (for_lt x hi body (h <$> d, c, b))
          with (for_lt x hi body (prod_map (prod_map hs id) id (d, c, b)))
    end.
    rewrite (for_lt_map (prod_map (prod_map hs id) id)
      (λ _ '(data, cur, b),
                s ← load stacked cur;
                d ← load data b;
                data ← store data b (add d s);
                Some (data, cur + 1, b + strideX g))).
    + by destruct (for_lt _ _ _ (d, _, _)) as [[x [[d1 c1] b1]]|].
    + intros _ [[d1 c1] b1]. cbn [prod_map fst snd id].
      rewrite !(load_fmap h).
      destruct (load stacked c1) as [s|];
        cbn [fmap option_fmap option_map mbind option_bind]; [|done].
      destruct (load d1 b1) as [d0|];
        cbn [fmap option_fmap option_map mbind option_bind]; [|done].
      rewrite <- h_add, store_fmap.
      by destruct (store d1 b1 _).
Qed.

Lemma backward_map g (data stacked : list T) :
  backward zero' add' g (h <$> data) (h <$> stacked)
  = prod_map id hs <$> backward zero add g data stacked.
Proof.
  unfold backward.
  destruct (Int_div (width g + _ + _ - _) _) as [qx|]; cbn [mbind option_bind]; [|done].
  destruct (Int_div (height g + _ + _ - _) _) as [qy|]; cbn [mbind option_bind]; [|done].
  rewrite memset_zero_map.
  destruct (memset_zero zero data _) as [d|];
    cbn [fmap option_fmap option_map mbind option_bind]; [|done].
  unfold backward_rows.
  change (h <$> d, 0) with (prod_map hs id (d, 0)).
  rewrite (for_lt_map (prod_map hs id) (backward_row add g (qx + 1) (qy + 1) stacked)).
  - by destruct (for_lt 0 _ _ (d, 0)) as [[? [? ?]]|].
  - intros row [d1 c1]. apply backward_row_map.
Qed.


End BackwardMap.

Section BackwardAdditive.
Context {T : Type} (zero : T) (add : T → T → T).
Hypothesis add_zero : add zero zero = zero.
Hypothesis add_assoc : ∀ a b c, add a (add b c) = add (add a b) c.
Hypothesis add_comm : ∀ a b, add a b = add b a.

Lemma add_medial a b c d : add (add a b) (add c d) = add (add a c) (add b d).
Proof.
  rewrite <- !add_assoc. f_equal. rewrite !add_assoc. f_equal. apply add_comm.
Qed.

Lemma fst_zip_same_length {A B : Type} (l : list A) (k : list B) :
  length l = length k → fst <$> zip l k = l.
Proof. intros. by apply fst_zip, Nat.eq_le_incl. Qed.

Lemma snd_zip_same_length {A B : Type} (l : list A) (k : list B) :
  length l = length k → snd <$> zip l k = k.
Proof. intros. by apply snd_zip, Nat.eq_le_incl. Qed.

Lemma zip_with_zip (l k : list T) :
  zip_with add l k = (λ p, add p.1 p.2) <$> zip l k.
Proof. revert k. induction l as [|a l IH]; intros [|b k]; simpl; f_equal; auto. Qed.

Lemma zip_with_fst_snd (l : list (T * T)) :
  (λ p, add p.1 p.2) <$> l = zip_with add (fst <$> l) (snd <$> l).
Proof. induction l as [|[a b] l IH]; simpl; f_equal; auto. Qed.


End BackwardAdditive.

(** *** [backward] is the adjoint of [forward] *)

Lemma list_bind_assoc {A B C : Type} (f : A → list B) (k : B → list C) (l : list A) :
  (l ≫= f) ≫= k = l ≫= λ a, f a ≫= k.
Proof.
  induction l as [|a l IH]; [done|]. by rewrite !bind_cons, bind_app, IH.
Qed.

Lemma bind_singleton_fmap {A B : Type} (f : A → B) (l : list A) :
  l ≫= (λ a, [f a]) = f <$> l.
Proof. induction l as [|a l IH]; [done|]. rewrite bind_cons, IH. done. Qed.

Lemma elem_of_entries g row y x :
  (row, y, x) ∈ entries g
  ↔ 0 ≤ row < numRows g ∧ 0 ≤ y < numPatchesY g ∧ 0 ≤ x < numPatchesX g.
Proof.
  unfold entries. split.
  - intros (r & H & Hr)%list_elem_of_bind.
    apply list_elem_of_bind in H as (y' & H & Hy).
    apply list_elem_of_bind in H as (x' & H & Hx).
    apply list_elem_of_singleton in H. simplify_eq.
    apply elem_of_seqZ in Hr, Hy, Hx. lia.
  - intros (Hr & Hy & Hx).
    apply list_elem_of_bind. exists row. split; [|apply elem_of_seqZ; lia].
    apply list_elem_of_bind. exists y. split; [|apply elem_of_seqZ; lia].
    apply list_elem_of_bind. exists x. split; [|apply elem_of_seqZ; lia].
    apply list_elem_of_singleton. done.
Qed.

(** A row-major enumeration of [n] blocks of [m] offsets is the
    enumeration of all the offsets. *)
Lemma seqZ_flatten n m :
  seqZ 0 n ≫= (λ i, (λ j, i * m + j) <$> seqZ 0 m) = seqZ 0 (Z.max 0 n * Z.max 0 m).
Proof.
  destruct (decide (0 < m)) as [Hm|Hm]; cycle 1.
  { rewrite (Z.max_l 0 m), Z.mul_0_r by lia. rewrite (seqZ_nil 0 m) by lia.
    apply bind_nil_seqZ. done. }
  rewrite (Z.max_r 0 m) by lia.
  destruct (decide (0 ≤ n)) as [Hn|Hn]; cycle 1.
  { rewrite (Z.max_l 0 n) by lia. rewrite (seqZ_nil 0 n) by lia. done. }
  rewrite Z.max_r by lia.
  rewrite <- (Z2Nat.id n) by done. induction (Z.to_nat n) as [|k IH].
  - done.
  - rewrite Nat2Z.inj_succ. unfold Z.succ.
    rewrite seqZ_app by lia. rewrite bind_app, IH.
    rewrite (seqZ_cons _ 1), (seqZ_nil _ (Z.pred 1)) by lia. simpl.
    rewrite app_nil_r.
    replace ((Z.of_nat k + 1) * m) with (Z.of_nat k * m + m) by lia.
    rewrite seqZ_app by lia. f_equal.
    replace (0 + Z.of_nat k * m) with (Z.of_nat k * m + 0) by lia.
    rewrite <- (fmap_add_seqZ (Z.of_nat k * m) 0 m).
    apply list_fmap_ext. intros ? j _. lia.
Qed.

(** The offsets of the entries, in order, are [0], [1], [2], ... *)
Lemma entries_index g :
  (λ t : Z * Z * Z, entry_index g t.1.1 t.1.2 t.2) <$> entries g
  = seqZ 0 (Z.max 0 (numRows g) * (Z.max 0 (numPatchesX g) * Z.max 0 (numPatchesY g))).
Proof.
  unfold entries. rewrite fmap_bind_seqZ.
  set (nx := numPatchesX g). set (ny := numPatchesY g).
  set (M := Z.max 0 ny * Z.max 0 nx).
  assert (∀ row, (λ t : Z * Z * Z, entry_index g t.1.1 t.1.2 t.2)
            <$> (seqZ 0 ny ≫= λ y, seqZ 0 nx ≫= λ x, [(row, y, x)])
          = (λ j, row * M + j) <$> seqZ 0 M) as Hrow.
  { intros row. unfold M. rewrite <- seqZ_flatten.
    rewrite fmap_bind_seqZ.
    rewrite <- (bind_singleton_fmap (λ j, row * _ + j)).
    rewrite list_bind_assoc. apply bind_ext_seqZ. intros y Hy.
    rewrite fmap_bind_seqZ. simpl.
    rewrite <- (bind_singleton_fmap (λ j, y * nx + j)).
    rewrite list_bind_assoc. apply bind_ext_seqZ. intros x Hx.
    simpl. unfold entry_index. fold nx ny. f_equal. lia. }
  erewrite bind_ext_seqZ by (intros row _; apply Hrow).
  rewrite seqZ_flatten. f_equal. unfold M.
  destruct (Z.max_spec 0 ny) as [[? ->]|[? ->]], (Z.max_spec 0 nx) as [[? ->]|[? ->]]; lia.
Qed.

Section Adjoint.
Context {T : Type} (zero : T) (add mul : T → T → T).

Hypothesis add_assoc : ∀ a b c, add a (add b c) = add (add a b) c.
Hypothesis add_comm : ∀ a b, add a b = add b a.
Hypothesis add_0_r : ∀ a, add a zero = a.
Hypothesis mul_0_l : ∀ a, mul zero a = zero.
Hypothesis mul_0_r : ∀ a, mul a zero = zero.
Hypothesis mul_add_distr_l : ∀ a b c, mul a (add b c) = add (mul a b) (mul a c).

Local Abbreviation F := (λ (acc : T) (p : T * T), add acc (mul p.1 p.2)).

(** Adds an event, weighted by the voxel it hits. *)
Local Abbreviation W V :=
  (λ (acc : T) (e : Z * T), add acc (mul (at_offset zero V e.1) e.2)).

Lemma patch_matrix_entries g (V : list T) :
  patch_matrix zero g V
  = (λ t : Z * Z * Z,
       sample zero g V (row_u g t.1.1) (row_v g t.1.1) (row_z g t.1.1) t.2 t.1.2)
    <$> entries g.
Proof.
  unfold patch_matrix, patch_row, entries. rewrite fmap_bind_seqZ.
  apply bind_ext_seqZ. intros row _. rewrite fmap_bind_seqZ.
  apply bind_ext_seqZ. intros y _. rewrite fmap_bind_seqZ.
  apply bind_ext_seqZ. intros x _. done.
Qed.

Lemma patch_events_entries g (S : list T) :
  patch_events zero g S
  = entries g ≫= λ t : Z * Z * Z,
      if inside g (row_u g t.1.1) (row_v g t.1.1) t.2 t.1.2
      then [(voxel g (row_z g t.1.1) (y_data g (row_v g t.1.1) t.1.2)
               (x_data g (row_u g t.1.1) t.2),
             at_offset zero S (entry_index g t.1.1 t.1.2 t.2))]
      else [].
Proof.
  unfold patch_events, row_events, entries. rewrite list_bind_assoc.
  apply bind_ext_seqZ. intros row _. rewrite list_bind_assoc.
  apply bind_ext_seqZ. intros y _. rewrite list_bind_assoc.
  apply bind_ext_seqZ. intros x _. rewrite bind_singleton. done.
Qed.

Lemma take_at_offset (S : list T) n :
  n ≤ Z.of_nat (length S) →
  take (Z.to_nat n) S = at_offset zero S <$> seqZ 0 n.
Proof.
  intros Hn. apply list_eq. intros i.
  rewrite list_lookup_fmap.
  destruct (decide (Z.of_nat i < n)) as [Hi|Hi].
  - rewrite lookup_take_lt by lia. rewrite lookup_seqZ_lt by lia. simpl.
    unfold at_offset, load. destruct (decide (0 ≤ 0 + Z.of_nat i)); [|lia].
    replace (Z.to_nat (0 + Z.of_nat i)) with i by lia.
    destruct (lookup_lt_is_Some_2 S i) as [x Hx]; [lia|]. by rewrite Hx.
  - rewrite lookup_take_ge by lia. by rewrite lookup_seqZ_ge by lia.
Qed.

Lemma zip_patch_matrix g (V S : list T) :
  Z.max 0 (numRows g) * (Z.max 0 (numPatchesX g) * Z.max 0 (numPatchesY g))
    ≤ Z.of_nat (length S) →
  zip (patch_matrix zero g V) S
  = (λ t : Z * Z * Z,
       (sample zero g V (row_u g t.1.1) (row_v g t.1.1) (row_z g t.1.1) t.2 t.1.2,
        at_offset zero S (entry_index g t.1.1 t.1.2 t.2)))
    <$> entries g.
Proof.
  intros HS.
  rewrite <- (zip_with_take_r pair (patch_matrix zero g V) S).
  replace (length (patch_matrix zero g V))
    with (Z.to_nat (Z.max 0 (numRows g)
                    * (Z.max 0 (numPatchesX g) * Z.max 0 (numPatchesY g))))
    by (rewrite <- length_patch_matrix with (zero := zero) (data := V); lia).
  rewrite take_at_offset by done.
  rewrite <- entries_index, <- list_fmap_compose.
  rewrite patch_matrix_entries.
  rewrite zip_with_fmap_l, zip_with_fmap_r, zip_with_diag. done.
Qed.

Lemma foldl_fmap_bind {A B C : Type} (f : T → B → T) (k : A → B)
    (h : T → C → T) (ev : A → list C) (l : list A) acc :
  (∀ acc a, a ∈ l → f acc (k a) = foldl h acc (ev a)) →
  foldl f acc (k <$> l) = foldl h acc (l ≫= ev).
Proof.
  revert acc. induction l as [|a l IH]; intros acc H; [done|].
  rewrite fmap_cons, bind_cons, foldl_app. simpl.
  rewrite H by left. apply IH. intros acc' a' Ha'. apply H. by right.
Qed.

(** The inner product with the patch matrix of [V] adds, for every event
    of the other matrix, its value weighted by the voxel of [V] it hits:
    the entries sampled in the padding are zero. *)
Lemma inner_patch_matrix g (V S : list T) :
  Z.max 0 (numRows g) * (Z.max 0 (numPatchesX g) * Z.max 0 (numPatchesY g))
    ≤ Z.of_nat (length S) →
  inner_product zero add mul (patch_matrix zero g V) S
  = foldl (W V) zero (patch_events zero g S).
Proof.
  intros HS. unfold inner_product.
  rewrite zip_patch_matrix, patch_events_entries by done.
  apply foldl_fmap_bind. intros acc [[row y] x] _. simpl.
  unfold sample. destruct (inside g _ _ x y); simpl; [done|].
  by rewrite mul_0_l, add_0_r.
Qed.

Lemma foldl_F_acc (l : list (T * T)) a x :
  foldl F (add a x) l = add (foldl F a l) x.
Proof.
  revert a. induction l as [|p l IH]; intros a; [done|]. simpl.
  rewrite <- IH. f_equal.
  rewrite <- !add_assoc. f_equal. apply add_comm.
Qed.

Lemma foldl_zip_alter (V data : list T) n s acc :
  (n < length V)%nat → length data = length V →
  foldl F acc (zip V (alter (λ d, add d s) n data))
  = add (foldl F acc (zip V data)) (mul (default zero (V !! n)) s).
Proof.
  revert n data acc.
  induction V as [|v V IH]; intros n data acc Hn Hlen; [simpl in Hn; lia|].
  destruct data as [|d data]; [done|]. simpl in Hlen, Hn.
  destruct n as [|n]; simpl.
  - rewrite mul_add_distr_l, add_assoc. apply foldl_F_acc.
  - apply IH; lia.
Qed.

(** [*b += s] adds [V[b] * s] to the inner product with [V]. *)
Lemma inner_accumulate (V data : list T) i s :
  0 ≤ i < Z.of_nat (length V) → length data = length V →
  inner_product zero add mul V (accumulate add data (i, s))
  = add (inner_product zero add mul V data) (mul (at_offset zero V i) s).
Proof.
  intros Hi Hlen. unfold inner_product, accumulate, at_offset, load. simpl.
  destruct (decide (0 ≤ i)); [|lia].
  apply foldl_zip_alter; [lia|done].
Qed.

Lemma inner_scatter (V data : list T) events :
  length data = length V →
  Forall (λ e : Z * T, 0 ≤ e.1 < Z.of_nat (length V)) events →
  inner_product zero add mul V (scatter add events data)
  = foldl (W V) (inner_product zero add mul V data) events.
Proof.
  intros Hlen Hall. revert data Hlen.
  induction Hall as [|[i s] es Hi _ IH]; intros data Hlen; [done|].
  unfold scatter in *. simpl. rewrite IH by (by rewrite length_accumulate).
  by rewrite inner_accumulate.
Qed.

Lemma inner_zero (V : list T) n :
  inner_product zero add mul V (replicate n zero) = zero.
Proof.
  unfold inner_product. generalize zero at 1 3.
  revert n. induction V as [|v V IH]; intros [|n] acc; simpl; try done.
  rewrite mul_0_r, add_0_r. apply IH.
Qed.


End Adjoint.









(** ** Results on the fully-connected block *)

Lemma index_mod i j ld : 0 ≤ i < ld → (i + j * ld) `mod` ld = i.
Proof. intros Hi. symmetry. apply Z.mod_unique_pos with (q := j); lia. Qed.

Lemma index_div i j ld : 0 ≤ i < ld → (i + j * ld) `div` ld = j.
Proof. intros Hi. apply floor_unique; lia. Qed.

Section FullyConnectedProofs.
Context {R : Type} (zero one : R) (add mul : R → R → R).
Context (respond : @Call R → ErrorCode) (allOnes : nat).

Hypothesis add_0_l : ∀ x, add zero x = x.
Hypothesis add_0_r : ∀ x, add x zero = x.
Hypothesis mul_1_l : ∀ x, mul one x = x.
Hypothesis mul_1_r : ∀ x, mul x one = x.
Hypothesis mul_0_l : ∀ x, mul zero x = zero.

Local Abbreviation dotR := (dot zero add mul).
Local Abbreviation gemmR := (gemm_result zero add mul).
Local Abbreviation gemvR := (gemv_result zero add mul).

Lemma foldl_ext_seqZ (f f' : R → Z → R) lo n a :
  (∀ acc l, lo ≤ l < lo + n → f acc l = f' acc l) →
  foldl f a (seqZ lo n) = foldl f' a (seqZ lo n).
Proof.
  intros H. assert (Forall (λ l, lo ≤ l < lo + n) (seqZ lo n)) as Hall.
  { apply Forall_seqZ. auto. }
  revert a. induction Hall as [|l ls Hl _ IH]; intros a; [done|].
  simpl. rewrite H by done. apply IH.
Qed.

Lemma dot_ext k f f' g g' :
  (∀ l, 0 ≤ l < k → f l = f' l) → (∀ l, 0 ≤ l < k → g l = g' l) →
  dotR k f g = dotR k f' g'.
Proof.
  intros Hf Hg. unfold dot. apply foldl_ext_seqZ.
  intros acc l Hl. by rewrite Hf, Hg by lia.
Qed.

Lemma dot_single f g : dotR 1 f g = mul (f 0) (g 0).
Proof.
  unfold dot. rewrite seqZ_cons, seqZ_nil by lia. simpl.
  apply add_0_l.
Qed.

Lemma dot_ones n ones g :
  (∀ l, 0 ≤ l < n → ones l = one) → dotR n ones g = sum zero add n g.
Proof.
  intros Hones. unfold dot, sum. apply foldl_ext_seqZ.
  intros acc l Hl. by rewrite Hones, mul_1_l by lia.
Qed.

Lemma gemm_result_entry tA tB m n k alpha A lda B ldb beta C ldc i j :
  0 ≤ i < m → 0 ≤ j < n → m ≤ ldc →
  gemmR tA tB m n k alpha A lda B ldb beta C ldc (i + j * ldc)
  = add (mul alpha (dotR k (λ l, A (op_index tA lda i l))
                          (λ l, B (op_index tB ldb l j))))
        (mul beta (C (i + j * ldc))).
Proof.
  intros Hi Hj Hld. unfold gemm_result.
  rewrite index_mod, index_div by lia.
  rewrite bool_decide_eq_true_2; [done|]. nia.
Qed.

Lemma gemv_result_entry t m n alpha A lda x beta y j :
  0 ≤ j < match t with NoTrans => m | Trans => n end →
  gemvR t m n alpha A lda x 1 beta y 1 j
  = add (mul alpha (dotR (match t with NoTrans => n | Trans => m end)
                        (λ l, A (op_index t lda j l)) (λ l, x (l * 1))))
        (mul beta (y j)).
Proof.
  intros Hj. unfold gemv_result. rewrite Z.div_1_r.
  rewrite bool_decide_eq_true_2; [done|]. rewrite Z.mod_1_r. lia.
Qed.

Lemma upd_eq (mem : @Memory R) b buf : upd mem b buf b = buf.
Proof. unfold upd. by rewrite decide_True. Qed.

Lemma upd_ne (mem : @Memory R) b b' buf : b' ≠ b → upd mem b buf b' = mem b'.
Proof. intros. unfold upd. by rewrite decide_False. Qed.

Hypothesis respond_ok : ∀ c, respond c = VLE_Success.

Lemma gemm_ok tA tB m n k alpha a lda b ldb beta c ldc w :
  gemm zero add mul respond tA tB m n k alpha (Some a) lda (Some b) ldb beta (Some c) ldc w
  = Some (VLE_Success,
          mkWorld
            (upd (memory w) c
               (gemmR tA tB m n k alpha (memory w a) lda (memory w b) ldb
                  beta (memory w c) ldc))
            (lastError w)
            (calls w ++ [CallGemm tA tB m n k alpha (Some a) lda (Some b) ldb
                           beta (Some c) ldc])).
Proof. unfold gemm, call. by rewrite respond_ok. Qed.

Lemma gemv_ok t m n alpha a lda x incx beta y incy w :
  gemv zero add mul respond t m n alpha (Some a) lda (Some x) incx beta (Some y) incy w
  = Some (VLE_Success,
          mkWorld
            (upd (memory w) y
               (gemvR t m n alpha (memory w a) lda (memory w x) incx
                  beta (memory w y) incy))
            (lastError w)
            (calls w ++ [CallGemv t m n alpha (Some a) lda (Some x) incx
                           beta (Some y) incy])).
Proof. unfold gemv, call. by rewrite respond_ok. Qed.

Lemma copy_ok d s count w :
  copy respond (Some d) (Some s) count w
  = Some (VLE_Success,
          mkWorld (upd (memory w) d (copy_result (memory w d) (memory w s) count))
            (lastError w) (calls w ++ [CallCopy (Some d) (Some s) count])).
Proof. unfold copy, call. by rewrite respond_ok. Qed.

Lemma getAllOnes_ok n w :
  getAllOnes one respond allOnes n w
  = Some (Some allOnes,
          mkWorld
            (upd (memory w) allOnes
               (λ idx, if bool_decide (0 ≤ idx < n) then one
                       else memory w allOnes idx))
            (lastError w) (calls w ++ [CallGetAllOnes n])).
Proof. unfold getAllOnes. by rewrite respond_ok. Qed.

(** The bias step of the forward pass: the outer product of the bias with
    the all-ones vector is added to the output. *)
Lemma forward_bias_entry (biasv ones out : Z → R) mb n j col :
  (∀ l, 0 ≤ l < n → ones l = one) →
  0 ≤ j < mb → 0 ≤ col < n →
  gemmR NoTrans NoTrans mb n 1 one biasv mb ones 1 one out mb
    (j + col * mb)
  = add (biasv j) (out (j + col * mb)).
Proof.
  intros Hones Hj Hcol. rewrite gemm_result_entry by lia.
  rewrite dot_single, !mul_1_l. simpl.
  rewrite Hones by lia. rewrite mul_1_r. do 2 f_equal. lia.
Qed.

Lemma ones_buffer (old : Z → R) n l :
  0 ≤ l < n → (if bool_decide (0 ≤ l < n) then one else old l) = one.
Proof. intros Hl. by rewrite bool_decide_eq_true_2. Qed.

(** [filter^T * input] through the matrix-matrix product. *)
Lemma forward_gemm_entry (fv iv out : Z → R) V m n j col :
  0 ≤ j < m → 0 ≤ col < n →
  gemmR Trans NoTrans m n V one fv V iv V zero out m (j + col * m)
  = product zero add mul V fv iv j col.
Proof.
  intros Hj Hcol. rewrite gemm_result_entry by lia.
  by rewrite mul_1_l, mul_0_l, add_0_r.
Qed.

(** [filter^T * input] through the matrix-vector product, for a single
    column. *)
Lemma forward_gemv_entry (fv iv out : Z → R) V m j :
  0 ≤ j < m →
  gemvR Trans V m one fv V iv 1 zero out 1 j
  = product zero add mul V fv iv j 0.
Proof.
  intros Hj. rewrite (gemv_result_entry Trans) by lia.
  rewrite mul_1_l, mul_0_l, add_0_r. unfold product. apply dot_ext; [done|].
  intros l Hl. f_equal. lia.
Qed.

Ltac run_calls :=
  repeat first
    [ progress unfold bind, ret, passError, getLastError
    | rewrite gemm_ok | rewrite gemv_ok | rewrite copy_ok
    | rewrite getAllOnes_ok
    | progress cbn [memory lastError calls]
    | progress cbv beta iota
    | match goal with
      | |- context [decide (VLE_Success ≠ VLE_Success)] =>
          destruct (decide (VLE_Success ≠ VLE_Success)) as [?H|_];
          [congruence|]
      end ].

(** Finishes a case of the forward pass once the output of its first
    call is known: the bias step is run and its effect read back. *)
Ltac exists_pre p :=
  match goal with
  | Hob : ∀ b, getMemory ?bias = Some b → _ |- _ =>
      destruct (getMemory bias) as [b|] eqn:Eb;
      [destruct (Hob b eq_refl) as [Hob1 Hob2]|];
      run_calls;
      (eexists; exists p; split; [reflexivity|]; cbn [memory calls];
       split; [by rewrite <- ?app_assoc|];
       split; [first [done | intros ? ?; simplify_eq; assumption]|];
       split; [first [done | intros _; assumption]|];
       split;
       [ first [done | intros _ idx; by rewrite upd_eq]
       | first
           [ done
           | intros b' ? j col Hj Hcol; simplify_eq;
             rewrite upd_eq, upd_ne, upd_eq, !upd_ne, upd_eq by done;
             apply forward_bias_entry;
             [intros; by apply ones_buffer|done..] ] ])
  end.

(** C4: when every call succeeds, the forward pass returns [VLE_Success].
    Its first call is the matrix-vector product when the input holds one
    column, the matrix-matrix product when it holds several, and the
    element-wise copy when the filter is absent; [pre], the output of that
    call, is [filter^T * input] on the [m] by [n] entries, or the input
    itself.  Without bias the output is [pre]; with bias, the request for
    the all-ones vector of length [n] and a matrix-matrix product with it
    add the bias to every one of the [n] columns of [pre]. *)
Theorem forward_affine (output input filter bias : Tensor) (w : @World R) o i :
  getMemory output = Some o → getMemory input = Some i →
  o ≠ i → o ≠ allOnes →
  (∀ f, getMemory filter = Some f → o ≠ f) →
  (∀ b, getMemory bias = Some b → o ≠ b ∧ b ≠ allOnes) →
  ∃ w' pre,
    FullyConnectedForward zero one add mul respond allOnes
      output input filter bias w = Some (VLE_Success, w')
    ∧ calls w' = calls w ++ forward_calls zero one allOnes output input filter bias
    ∧ (∀ f, getMemory filter = Some f →
         ∀ j col, 0 ≤ j < getSize filter → 0 ≤ col < getSize input →
           pre (j + col * getSize filter)
           = product zero add mul
               (getHeight filter * getWidth filter * getDepth filter)
               (memory w f) (memory w i) j col)
    ∧ (getMemory filter = None →
         ∀ idx, 0 ≤ idx < getNumElements input → pre idx = memory w i idx)
    ∧ (getMemory bias = None → ∀ idx, memory w' o idx = pre idx)
    ∧ (∀ b, getMemory bias = Some b →
         ∀ j col, 0 ≤ j < getNumElements bias → 0 ≤ col < getSize input →
           memory w' o (j + col * getNumElements bias)
           = add (memory w b j) (pre (j + col * getNumElements bias))).
Proof.
  intros Ho Hi Hoi Hoa Hof Hob.
  unfold FullyConnectedForward, forward_calls, present.
  rewrite Ho, Hi.
  set (V := getHeight filter * getWidth filter * getDepth filter).
  destruct (getMemory filter) as [f|] eqn:Ef;
    [destruct (decide (getSize input = 1)) as [En|En]|].
  - set (pre := gemvR Trans V (getSize filter) one (memory w f) V
                  (memory w i) 1 zero (memory w o) 1).
    assert (∀ j col, 0 ≤ j < getSize filter → 0 ≤ col < getSize input →
              pre (j + col * getSize filter)
              = product zero add mul V (memory w f) (memory w i) j col) as Hpre.
    { intros j col Hj Hcol. replace col with 0 by lia.
      rewrite Z.mul_0_l, Z.add_0_r. by apply forward_gemv_entry. }
    exists_pre pre.
  - set (pre := gemmR Trans NoTrans (getSize filter) (getSize input) V
                  one (memory w f) V (memory w i) V zero (memory w o)
                  (getSize filter)).
    assert (∀ j col, 0 ≤ j < getSize filter → 0 ≤ col < getSize input →
              pre (j + col * getSize filter)
              = product zero add mul V (memory w f) (memory w i) j col) as Hpre.
    { intros j col Hj Hcol. by apply forward_gemm_entry. }
    exists_pre pre.
  - set (pre := copy_result (memory w o) (memory w i) (getNumElements input)).
    assert (∀ idx, 0 ≤ idx < getNumElements input → pre idx = memory w i idx)
      as Hpre.
    { intros idx Hidx. unfold pre, copy_result.
      by rewrite bool_decide_eq_true_2. }
    exists_pre pre.
Qed.

(** Runs the calls one at a time, naming the memory after each of them. *)
Ltac fold_memory :=
  match goal with
  | |- context [mkWorld (upd ?m ?b ?f) _ _] =>
      let m' := fresh "mem" in set (m' := upd m b f)
  end.

Ltac run_calls_folding :=
  repeat first
    [ progress unfold bind, ret, passError, getLastError
    | first [ rewrite gemm_ok | rewrite gemv_ok | rewrite copy_ok
            | rewrite getAllOnes_ok ];
      cbn [memory lastError calls]; fold_memory
    | progress cbv beta iota
    | match goal with
      | |- context [decide (VLE_Success ≠ VLE_Success)] =>
          destruct (decide (VLE_Success ≠ VLE_Success)) as [?H|_];
          [congruence|]
      end ].

Ltac unfold_last_memory :=
  match goal with
  | m := upd _ _ _ |- _ => unfold m; clear m
  end.

Ltac unfold_memories :=
  repeat match goal with
         | m := upd _ _ _ |- _ => unfold m; clear m
         end.

(** The bias step of the backward pass: the all-ones row vector times
    [derOutput^T] sums the columns of [derOutput]. *)
Lemma backward_bias_entry (ones dout out : Z → R) m n j :
  (∀ l, 0 ≤ l < n → ones l = one) →
  0 ≤ j < m →
  gemmR NoTrans Trans 1 m n one ones 1 dout m zero out 1 j
  = sum zero add n (λ col, dout (j + col * m)).
Proof.
  intros Hones Hj. replace j with (0 + j * 1) at 1 by lia.
  rewrite gemm_result_entry by lia.
  rewrite mul_1_l, mul_0_l, add_0_r. simpl.
  apply dot_ones. intros l Hl. rewrite <- (Hones l Hl). f_equal. lia.
Qed.


(** Membership in an explicit list of calls. *)
Ltac invert_call H :=
  repeat (apply elem_of_cons in H as [->|H]); [..|by apply elem_of_nil in H].

Ltac pick_call :=
  first
    [ split; [apply list_elem_of_here|simpl; reflexivity]
    | split; [apply list_elem_of_further, list_elem_of_here|simpl; reflexivity]
    | split; [do 2 apply list_elem_of_further; apply list_elem_of_here
             |simpl; reflexivity]
    | split; [do 3 apply list_elem_of_further; apply list_elem_of_here
             |simpl; reflexivity] ].

Ltac computed_iff :=
  split;
  [ intros (b & c & Hm & Hin & Hw); first [done | discriminate]
  | intros Hp; first [discriminate | do 2 eexists; split; [reflexivity|pick_call]] ].

Ltac not_computed :=
  intros (b & c & Hm & Hin & Hw); simplify_eq; invert_call Hin;
  simpl in Hw; congruence.

Ltac calls_compute_slots :=
  intros c Hin; invert_call Hin;
  first
    [ left; eexists; reflexivity
    | right; eexists; split; [simpl; reflexivity|];
      first [ left; reflexivity | right; left; reflexivity
            | right; right; reflexivity ] ].


(** The gradient with respect to the filter: [input * derOutput^T]. *)
Lemma backward_filter_entry (iv dv out : Z → R) V K N a k :
  0 ≤ a < V → 0 ≤ k < K →
  gemmR NoTrans Trans V K N one iv V dv K zero out V (a + k * V)
  = dotR N (λ n, iv (a + n * V)) (λ n, dv (k + n * K)).
Proof.
  intros Ha Hk. rewrite gemm_result_entry by lia.
  by rewrite mul_1_l, mul_0_l, add_0_r.
Qed.

(** The gradient with respect to the input: [filter * derOutput]. *)
Lemma backward_input_entry (fv dv out : Z → R) V K N a n :
  0 ≤ a < V → 0 ≤ n < N →
  gemmR NoTrans NoTrans V N K one fv V dv K zero out V (a + n * V)
  = dotR K (λ k, fv (a + k * V)) (λ k, dv (k + n * K)).
Proof.
  intros Ha Hn. rewrite gemm_result_entry by lia.
  by rewrite mul_1_l, mul_0_l, add_0_r.
Qed.

(** X9: with the filter present and every call succeeding, the slot of the
    derivative with respect to the filter receives [input * derOutput^T]:
    entry [(a, k)] is the sum over the batch of [input[a, n] *
    derOutput[k, n]], the batch size being that of [input] and the leading
    dimension of [derOutput] the number of filters. *)
Theorem backward_filter_gradient
    (derInput derFilter derBias input filter derOutput : Tensor)
    (w : @World R) f dF i dout :
  getMemory filter = Some f → getMemory derFilter = Some dF →
  getMemory input = Some i → getMemory derOutput = Some dout →
  dF ≠ i → dF ≠ dout → dF ≠ allOnes →
  (∀ b, getMemory derInput = Some b → b ≠ dF) →
  (∀ b, getMemory derBias = Some b → b ≠ dF) →
  ∃ w',
    FullyConnectedBackward zero one add mul respond allOnes
      derInput derFilter derBias input filter derOutput w
    = Some (VLE_Success, w')
    ∧ ∀ a k,
        0 ≤ a < getHeight filter * getWidth filter * getDepth filter →
        0 ≤ k < getSize filter →
        memory w' dF
          (a + k * (getHeight filter * getWidth filter * getDepth filter))
        = dotR (getSize input)
            (λ n, memory w i
                    (a + n * (getHeight filter * getWidth filter * getDepth filter)))
            (λ n, memory w dout (k + n * getSize filter)).
Proof.
  intros Hf HdF Hi Hdout Hne1 Hne2 Hne3 HdI HdB.
  unfold FullyConnectedBackward, present. rewrite Hf, HdF, Hi, Hdout.
  destruct (getMemory derInput) as [dI|] eqn:EdI;
    destruct (getMemory derBias) as [dB|] eqn:EdB.
  all: try specialize (HdI _ eq_refl); try specialize (HdB _ eq_refl).
  all: run_calls_folding.
  all: eexists; split; [reflexivity|]; cbn [memory].
  all: intros a k Ha Hk; unfold_memories.
  all: rewrite ?upd_ne by congruence; rewrite upd_eq.
  all: by apply backward_filter_entry.
Qed.

(** X10: with the filter present and every call succeeding, the slot of
    the derivative with respect to the input receives [filter * derOutput]:
    entry [(a, n)] is the sum over the filters of [filter[a, k] *
    derOutput[k, n]]. *)
Theorem backward_input_gradient
    (derInput derFilter derBias input filter derOutput : Tensor)
    (w : @World R) f dI i dout :
  getMemory filter = Some f → getMemory derInput = Some dI →
  getMemory input = Some i → getMemory derOutput = Some dout →
  dI ≠ f → dI ≠ dout → dI ≠ allOnes →
  (∀ b, getMemory derFilter = Some b → b ≠ f ∧ b ≠ dout ∧ b ≠ dI) →
  (∀ b, getMemory derBias = Some b → b ≠ dI) →
  ∃ w',
    FullyConnectedBackward zero one add mul respond allOnes
      derInput derFilter derBias input filter derOutput w
    = Some (VLE_Success, w')
    ∧ ∀ a n,
        0 ≤ a < getHeight filter * getWidth filter * getDepth filter →
        0 ≤ n < getSize input →
        memory w' dI
          (a + n * (getHeight filter * getWidth filter * getDepth filter))
        = dotR (getSize filter)
            (λ k, memory w f
                    (a + k * (getHeight filter * getWidth filter * getDepth filter)))
            (λ k, memory w dout (k + n * getSize filter)).
Proof.
  intros Hf HdI Hi Hdout Hne1 Hne2 Hne3 HdF HdB.
  unfold FullyConnectedBackward, present. rewrite Hf, HdI, Hi, Hdout.
  destruct (getMemory derFilter) as [dF|] eqn:EdF;
    destruct (getMemory derBias) as [dB|] eqn:EdB.
  all: try (destruct (HdF _ eq_refl) as (? & ? & ?)); try specialize (HdB _ eq_refl).
  all: run_calls_folding.
  all: eexists; split; [reflexivity|]; cbn [memory].
  all: intros a n Ha Hn; unfold_memories.
  all: rewrite ?upd_ne by congruence; rewrite upd_eq.
  all: rewrite ?upd_ne by congruence.
  all: by apply backward_input_entry.
Qed.

(** X11: without the filter and with every call succeeding, the slot of
    the derivative with respect to the input receives the first
    [getNumElements derOutput] elements of [derOutput] unchanged. *)
Theorem backward_identity_gradient
    (derInput derFilter derBias input derOutput : Tensor)
    (w : @World R) dI dout :
  getMemory derInput = Some dI → getMemory derOutput = Some dout →
  dI ≠ allOnes →
  (∀ b, getMemory derBias = Some b → b ≠ dI) →
  ∃ w',
    FullyConnectedBackward zero one add mul respond allOnes
      derInput derFilter derBias input absent derOutput w
    = Some (VLE_Success, w')
    ∧ ∀ idx, 0 ≤ idx < getNumElements derOutput →
        memory w' dI idx = memory w dout idx.
Proof.
  intros HdI Hdout Hne HdB.
  unfold FullyConnectedBackward, present. simpl. rewrite HdI, Hdout.
  destruct (getMemory derBias) as [dB|] eqn:EdB.
  all: try specialize (HdB _ eq_refl).
  all: run_calls_folding.
  all: eexists; split; [reflexivity|]; cbn [memory].
  all: intros idx Hidx; unfold_memories.
  all: rewrite ?upd_ne by congruence; rewrite upd_eq.
  all: unfold copy_result; by rewrite bool_decide_eq_true_2.
Qed.

End FullyConnectedProofs.

Lemma forward_affine_witness :
  ∃ w',
    FullyConnectedForward 0 1 Z.add Z.mul always_succeeds example_allOnes
      example_output example_input example_filter example_bias example_world
    = Some (VLE_Success, w')
    ∧ calls w'
      = [CallGemm Trans NoTrans 2 3 3 1 (Some 1%nat) 3 (Some 2%nat) 3 0
           (Some 4%nat) 2;
         CallGetAllOnes 3;
         CallGemm NoTrans NoTrans 2 3 1 1 (Some 6%nat) 2 (Some 9%nat) 1 1
           (Some 4%nat) 2]
    ∧ memory w' 4%nat 3 = 209.
Proof.
  destruct (forward_affine 0 1 Z.add Z.mul always_succeeds example_allOnes
              Z.add_0_l Z.add_0_r Z.mul_1_l Z.mul_1_r Z.mul_0_l
              (λ _, eq_refl)
              example_output example_input example_filter example_bias
              example_world 4%nat 2%nat)
    as (w' & pre & Hrun & Hcalls & Hpre & _ & _ & Hbias);
    [reflexivity | reflexivity | lia | vm_compute; lia
    | intros f [= <-]; lia
    | intros b [= <-]; vm_compute; split; lia |].
  exists w'. split; [exact Hrun|]. split; [exact Hcalls|].
  pose proof (Hbias 6%nat eq_refl 1 1 ltac:(by_computation) ltac:(by_computation))
    as Hb.
  pose proof (Hpre 1%nat eq_refl 1 1 ltac:(by_computation) ltac:(by_computation))
    as Hp.
  change (memory w' 4%nat 3 = 200 + pre 3) in Hb.
  change (pre 3 = 9) in Hp.
  rewrite Hb, Hp. reflexivity.
Defined.




(** C6: the status of the element-wise copy is not checked.  In a forward
    pass without filter and with bias the copy fails, the pass goes on to
    the bias step and returns [VLE_Success]; a backward pass without filter
    drops the status of its copy and returns [VLE_Success] as well. *)
Theorem copy_status_swallowed :
  copy_fails (@CallCopy Z (Some 4%nat) (Some 2%nat) 9) = VLE_BackendFailure
  ∧ (∃ w',
       FullyConnectedForward 0 1 Z.add Z.mul copy_fails example_allOnes
         example_output example_input absent example_bias example_world
       = Some (VLE_Success, w')
       ∧ calls w'
         = [CallCopy (Some 4%nat) (Some 2%nat) 9;
            CallGetAllOnes 3;
            CallGemm NoTrans NoTrans 2 3 1 1 (Some 6%nat) 2 (Some 9%nat) 1 1
              (Some 4%nat) 2])
  ∧ (∃ w',
       FullyConnectedBackward 0 1 Z.add Z.mul copy_fails example_allOnes
         example_derInput absent absent example_input absent
         example_derOutput example_world
       = Some (VLE_Success, w')
       ∧ calls w' = [CallCopy (Some 5%nat) (Some 0%nat) 6]).
Proof.
  split; [reflexivity|].
  split; eexists; (split; [reflexivity|reflexivity]).
Qed.

(** ** Failing collaborators *)

Section FullyConnectedErrors.
Context {R : Type} (zero one : R) (add mul : R → R → R).
Context (respond : @Call R → ErrorCode) (allOnes : nat).

Lemma call_failure c eff (w : @World R) :
  respond c ≠ VLE_Success →
  call respond c eff w
  = Some (respond c, mkWorld (memory w) (lastError w) (calls w ++ [c])).
Proof. unfold call. by destruct (respond c). Qed.

Lemma call_success c eff (w : @World R) :
  respond c = VLE_Success →
  call respond c eff w
  = mem ← eff (memory w);
    Some (VLE_Success, mkWorld mem (lastError w) (calls w ++ [c])).
Proof. unfold call. intros ->. done. Qed.

Lemma getAllOnes_failure n (w : @World R) :
  respond (CallGetAllOnes n) ≠ VLE_Success →
  getAllOnes one respond allOnes n w
  = Some (None, mkWorld (memory w) (respond (CallGetAllOnes n))
                  (calls w ++ [CallGetAllOnes n])).
Proof. unfold getAllOnes. by destruct (respond _). Qed.

Lemma getAllOnes_success n (w : @World R) :
  respond (CallGetAllOnes n) = VLE_Success →
  getAllOnes one respond allOnes n w
  = Some (Some allOnes,
          mkWorld
            (upd (memory w) allOnes
               (λ idx, if bool_decide (0 ≤ idx < n) then one
                       else memory w allOnes idx))
            (lastError w) (calls w ++ [CallGetAllOnes n])).
Proof. unfold getAllOnes. intros ->. done. Qed.

(** Splits on the answer to the next call. *)
Ltac step_call :=
  match goal with
  | |- context [call respond ?c ?eff ?w] =>
      let Hok := fresh "Hok" in
      let Hfail := fresh "Hfail" in
      destruct (decide (respond c = VLE_Success)) as [Hok|Hfail];
      [rewrite (call_success c eff w Hok)|rewrite (call_failure c eff w Hfail)]
  | |- context [getAllOnes one respond allOnes ?n ?w] =>
      let Hok := fresh "Hok" in
      let Hfail := fresh "Hfail" in
      destruct (decide (respond (CallGetAllOnes n) = VLE_Success)) as [Hok|Hfail];
      [rewrite (getAllOnes_success n w Hok)|rewrite (getAllOnes_failure n w Hfail)]
  end.

Ltac simpl_run :=
  repeat first
    [ progress cbn [memory lastError calls mbind option_bind]
    | progress cbv beta iota
    | match goal with
      | |- context [decide (VLE_Success ≠ VLE_Success)] =>
          destruct (decide (VLE_Success ≠ VLE_Success)) as [?H|_]; [congruence|]
      | H : respond ?c ≠ VLE_Success |- context [decide (respond ?c ≠ VLE_Success)] =>
          rewrite (decide_True (P := respond c ≠ VLE_Success)) by exact H
      end ].

Ltac run_all :=
  unfold passError, getLastError; unfold gemm, gemv, copy, bind, ret;
  repeat (simpl_run; try step_call); simpl_run.

(** Reads the calls of a run off its final world. *)
Ltac pick_trace w :=
  match goal with
  | |- ∃ _ _ _, Some (_, mkWorld _ _ (((calls w ++ [?c1]) ++ [?c2]) ++ [?c3])) = _ ∧ _ =>
      eexists _, [c1; c2], c3
  | |- ∃ _ _ _, Some (_, mkWorld _ _ ((calls w ++ [?c1]) ++ [?c2])) = _ ∧ _ =>
      eexists _, [c1], c2
  | |- ∃ _ _ _, Some (_, mkWorld _ _ (calls w ++ [?c1])) = _ ∧ _ =>
      eexists _, [], c1
  end.

Ltac status_of_last :=
  first
    [ reflexivity
    | match goal with
      | H : respond ?c = VLE_Success
        |- Some (VLE_Success, _) = Some (respond ?c, _) =>
          rewrite H; reflexivity
      end ].

(** X12: whatever the collaborators answer, a forward pass on a present
    input and output returns the status answered by the last call it
    made.  Its calls are a prefix of those of the successful pass, which
    it cuts short only after a call that failed; every earlier call
    succeeded, the copy apart, whose status is not tested. *)
Theorem forward_returns_last_status (output input filter bias : Tensor)
    (w : @World R) :
  present output = true → present input = true →
  ∃ w' cs c,
    FullyConnectedForward zero one add mul respond allOnes
      output input filter bias w = Some (respond c, w')
    ∧ calls w' = calls w ++ cs ++ [c]
    ∧ (cs ++ [c]) `prefix_of`
        forward_calls zero one allOnes output input filter bias
    ∧ (cs ++ [c] = forward_calls zero one allOnes output input filter bias
       ∨ respond c ≠ VLE_Success)
    ∧ (∀ c', c' ∈ cs →
         respond c' = VLE_Success ∨ ∃ d s n, c' = CallCopy d s n).
Proof.
  unfold FullyConnectedForward, forward_calls, present.
  destruct (getMemory output) as [o|] eqn:Eo; [|done].
  destruct (getMemory input) as [i|] eqn:Ei; [|done]. intros _ _.
  destruct (getMemory filter) as [f|] eqn:Ef;
    [destruct (decide (getSize input = 1)) as [En|En]|];
    destruct (getMemory bias) as [b|] eqn:Eb.
  all: run_all.
  all: pick_trace w.
  all: (split; [status_of_last|]).
  all: cbn [memory lastError calls].
  all: (split; [by rewrite <- ?app_assoc|]).
  all: simpl app.
  all: (split; [first [done | by eexists]|]).
  all: (split; [first [by left | by right]|]).
  all: intros c' Hc'.
  all: repeat (apply elem_of_cons in Hc' as [->|Hc']); try (by apply elem_of_nil in Hc').
  all: first [by left | right; by do 3 eexists].
Qed.

(** X13: whatever the collaborators answer, a forward pass on a present
    input and output returns, and the only buffers it may have changed are
    that of the output and the all-ones cache: the input, the filter and
    the bias are never written. *)
Theorem forward_frame (output input filter bias : Tensor) (w : @World R) o :
  getMemory output = Some o → present input = true →
  ∃ e w',
    FullyConnectedForward zero one add mul respond allOnes
      output input filter bias w = Some (e, w')
    ∧ ∀ b, b ≠ o → b ≠ allOnes → memory w' b = memory w b.
Proof.
  unfold FullyConnectedForward, present. intros ->.
  destruct (getMemory input) as [i|] eqn:Ei; [|done]. intros _.
  destruct (getMemory filter) as [f|] eqn:Ef;
    [destruct (decide (getSize input = 1)) as [En|En]|];
    destruct (getMemory bias) as [b|] eqn:Eb.
  all: run_all.
  all: eexists _, _; (split; [reflexivity|]).
  all: intros b' Hb1 Hb2; cbn [memory]; by rewrite ?upd_ne by done.
Qed.

(** X14: when the filter is present and its product with the input (the
    first call of the pass) fails, the forward pass returns the status of
    that call at once: no other call is made, the bias is not added and no
    memory is written. *)
Theorem forward_product_failure (output input filter bias : Tensor)
    (w : @World R) c rest :
  present filter = true →
  forward_calls zero one allOnes output input filter bias = c :: rest →
  respond c ≠ VLE_Success →
  FullyConnectedForward zero one add mul respond allOnes
    output input filter bias w
  = Some (respond c, mkWorld (memory w) (lastError w) (calls w ++ [c])).
Proof.
  unfold FullyConnectedForward, forward_calls. intros -> [= <- _] Hfail.
  destruct (decide (getSize input = 1)) as [En|En].
  all: unfold passError, gemm, gemv, bind, ret.
  all: rewrite call_failure by done.
  all: by rewrite decide_True by done.
Qed.

Ltac pick_trace_backward w :=
  match goal with
  | |- ∃ _ _ _,
        Some (_, mkWorld _ _ ((((calls w ++ [?c1]) ++ [?c2]) ++ [?c3]) ++ [?c4])) = _ ∧ _ =>
      eexists _, _, [c1; c2; c3; c4]
  | |- ∃ _ _ _, Some (_, mkWorld _ _ (((calls w ++ [?c1]) ++ [?c2]) ++ [?c3])) = _ ∧ _ =>
      eexists _, _, [c1; c2; c3]
  | |- ∃ _ _ _, Some (_, mkWorld _ _ ((calls w ++ [?c1]) ++ [?c2])) = _ ∧ _ =>
      eexists _, _, [c1; c2]
  | |- ∃ _ _ _, Some (_, mkWorld _ _ (calls w ++ [?c1])) = _ ∧ _ =>
      eexists _, _, [c1]
  | |- ∃ _ _ _, Some (_, w) = _ ∧ _ =>
      eexists _, _, []
  end.

(** X15: whatever the collaborators answer, a backward pass returns the
    status of the last call it made, except that the status of the copy of
    the filter-less pass is dropped: a pass that ends with the copy, or
    makes no call, returns [VLE_Success].  Its calls are a prefix of those
    of the successful pass, cut short only by a failure that it returns;
    every call before the last succeeded, the copy apart. *)
Theorem backward_returns_status
    (derInput derFilter derBias input filter derOutput : Tensor)
    (w : @World R) :
  present input = true → present derOutput = true →
  present filter = true ∨ present derInput = true →
  ∃ e w' cs,
    FullyConnectedBackward zero one add mul respond allOnes
      derInput derFilter derBias input filter derOutput w = Some (e, w')
    ∧ calls w' = calls w ++ cs
    ∧ cs `prefix_of`
        backward_calls zero one allOnes derInput derFilter derBias input
          filter derOutput
    ∧ (cs = backward_calls zero one allOnes derInput derFilter derBias input
              filter derOutput
       ∨ e ≠ VLE_Success)
    ∧ e = backward_status_of respond cs
    ∧ (∀ c', c' ∈ cs →
         respond c' = VLE_Success ∨ last cs = Some c'
         ∨ ∃ d s n, c' = CallCopy d s n).
Proof.
  unfold FullyConnectedBackward, backward_calls, backward_bias_calls, present.
  destruct (getMemory input) as [i|] eqn:Ei; [|done].
  destruct (getMemory derOutput) as [dout|] eqn:Edout; [|done]. intros _ _ Hdst.
  destruct (getMemory filter) as [f|] eqn:Ef;
    destruct (getMemory derFilter) as [dF|] eqn:EdF;
    (destruct (getMemory derInput) as [dI|] eqn:EdI;
     [|try (by destruct Hdst)]);
    destruct (getMemory derBias) as [dB|] eqn:EdB.
  all: clear Hdst.
  all: run_all.
  all: pick_trace_backward w.
  all: (split; [reflexivity|]).
  all: cbn [memory lastError calls].
  all: (split; [by rewrite <- ?app_assoc, ?app_nil_r|]).
  all: simpl app.
  all: (split; [first [done | by eexists]|]).
  all: (split; [first [by left | by right]|]).
  all: unfold backward_status_of; cbn [last].
  all: (split; [first [done | congruence]|]).
  all: intros c' Hc'.
  all: repeat (apply elem_of_cons in Hc' as [->|Hc']); try (by apply elem_of_nil in Hc').
  all: first [by left | by right; left | right; right; by do 3 eexists].
Qed.

(** X16: in a backward pass without filter the copy into the slot of the
    derivative with respect to the input is not guarded by a test of that
    slot.  When the slot is absent the copy is still called, with a null
    destination: if it answers with a failure the status is dropped and the
    pass goes on to the bias step; if it answers with success it has
    written through the null pointer and the pass is undefined. *)
Theorem backward_copy_unguarded
    (derInput derFilter derBias input filter derOutput : Tensor)
    (w : @World R) :
  present filter = false → present derInput = false →
  present derOutput = true →
  (respond (CallCopy None (getMemory derOutput) (getNumElements derOutput))
   = VLE_Success →
   FullyConnectedBackward zero one add mul respond allOnes
     derInput derFilter derBias input filter derOutput w = None)
  ∧ (respond (CallCopy None (getMemory derOutput) (getNumElements derOutput))
     ≠ VLE_Success →
     ∃ e w' cs,
       FullyConnectedBackward zero one add mul respond allOnes
         derInput derFilter derBias input filter derOutput w = Some (e, w')
       ∧ calls w'
         = calls w
           ++ CallCopy None (getMemory derOutput) (getNumElements derOutput)
              :: cs
       ∧ cs `prefix_of` backward_bias_calls zero one allOnes derBias derOutput).
Proof.
  unfold FullyConnectedBackward, backward_bias_calls, present.
  destruct (getMemory filter) as [f|] eqn:Ef; [done|].
  destruct (getMemory derInput) as [dI|] eqn:EdI; [done|].
  destruct (getMemory derOutput) as [dout|] eqn:Edout; [|done]. intros _ _ _.
  split.
  - intros Hok. unfold passError, copy, bind.
    by rewrite call_success by done.
  - intros Hfail. unfold passError, getLastError, copy, bind, ret.
    rewrite call_failure by done.
    destruct (getMemory derBias) as [dB|] eqn:EdB.
    all: unfold gemm; repeat (simpl_run; try step_call); simpl_run.
    all: eexists _, _, _; (split; [reflexivity|]); cbn [calls].
    all: (split; [rewrite <- ?app_assoc; simpl; reflexivity|]).
    all: first [done | by eexists].
Qed.

(** X17: when the first call of a forward pass succeeds and the request
    for the all-ones vector fails, the pass returns the status of that
    request, which the context has recorded, and adds no bias: the memory
    is left as the same pass without bias leaves it, the output holding
    the product (or the copy) alone. *)
Theorem forward_allones_failure (output input filter bias : Tensor)
    (w : @World R) :
  present output = true → present input = true → present bias = true →
  (∀ c, c ∈ forward_calls zero one allOnes output input filter absent →
        respond c = VLE_Success) →
  respond (CallGetAllOnes (getSize input)) ≠ VLE_Success →
  ∃ w1,
    FullyConnectedForward zero one add mul respond allOnes
      output input filter absent w = Some (VLE_Success, w1)
    ∧ FullyConnectedForward zero one add mul respond allOnes
        output input filter bias w
      = Some (respond (CallGetAllOnes (getSize input)),
              mkWorld (memory w1) (respond (CallGetAllOnes (getSize input)))
                (calls w1 ++ [CallGetAllOnes (getSize input)])).
Proof.
  unfold FullyConnectedForward, forward_calls, present. simpl.
  destruct (getMemory output) as [o|] eqn:Eo; [|done].
  destruct (getMemory input) as [i|] eqn:Ei; [|done].
  destruct (getMemory bias) as [b|] eqn:Eb; [|done]. intros _ _ _ Hfirst Hfail.
  destruct (getMemory filter) as [f|] eqn:Ef;
    [destruct (decide (getSize input = 1)) as [En|En]|].
  all: specialize (Hfirst _ (list_elem_of_here _ _)).
  all: unfold passError, getLastError, gemm, gemv, copy, bind, ret.
  all: rewrite !call_success by done; simpl_run.
  all: rewrite getAllOnes_failure by done; simpl_run.
  all: eexists; split; reflexivity.
Qed.

(** X18: whatever the collaborators answer, a backward pass returns, and
    the only buffers it can have changed are those of the three gradient
    slots and the all-ones cache: the input, the filter and the derivative
    of the output are never written. *)
Theorem backward_frame
    (derInput derFilter derBias input filter derOutput : Tensor)
    (w : @World R) :
  present input = true → present derOutput = true →
  present filter = true ∨ present derInput = true →
  ∃ e w',
    FullyConnectedBackward zero one add mul respond allOnes
      derInput derFilter derBias input filter derOutput w = Some (e, w')
    ∧ ∀ b, getMemory derInput ≠ Some b → getMemory derFilter ≠ Some b →
           getMemory derBias ≠ Some b → b ≠ allOnes →
           memory w' b = memory w b.
Proof.
  unfold FullyConnectedBackward, present.
  destruct (getMemory input) as [i|] eqn:Ei; [|done].
  destruct (getMemory derOutput) as [dout|] eqn:Edout; [|done]. intros _ _ Hdst.
  destruct (getMemory filter) as [f|] eqn:Ef;
    destruct (getMemory derFilter) as [dF|] eqn:EdF;
    (destruct (getMemory derInput) as [dI|] eqn:EdI;
     [|try (by destruct Hdst)]);
    destruct (getMemory derBias) as [dB|] eqn:EdB.
  all: clear Hdst.
  all: run_all.
  all: eexists _, _; (split; [reflexivity|]).
  all: intros b' ? ? ? ?; cbn [memory]; by rewrite ?upd_ne by congruence.
Qed.

End FullyConnectedErrors.

Lemma backward_filter_gradient_witness :
  ∃ w',
    FullyConnectedBackward 0 1 Z.add Z.mul always_succeeds example_allOnes
      example_derInput example_derFilter example_derBias example_input
      example_filter example_derOutput example_world
    = Some (VLE_Success, w')
    ∧ memory w' 7%nat 0 = 24 ∧ memory w' 7%nat 5 = 60.
Proof.
  destruct (backward_filter_gradient 0 1 Z.add Z.mul always_succeeds
              example_allOnes Z.add_0_r Z.mul_1_l Z.mul_0_l (λ _, eq_refl)
              example_derInput example_derFilter example_derBias example_input
              example_filter example_derOutput example_world
              1%nat 7%nat 2%nat 0%nat)
    as (w' & Hrun & Hval);
    [reflexivity | reflexivity | reflexivity | reflexivity
    | lia | lia | vm_compute; lia
    | intros b [= <-]; lia | intros b [= <-]; lia |].
  exists w'. split; [exact Hrun|].
  pose proof (Hval 0 0 ltac:(by_computation) ltac:(by_computation)) as H0.
  pose proof (Hval 2 1 ltac:(by_computation) ltac:(by_computation)) as H5.
  split; [exact H0|exact H5].
Defined.

Lemma backward_input_gradient_witness :
  ∃ w',
    FullyConnectedBackward 0 1 Z.add Z.mul always_succeeds example_allOnes
      example_derInput example_derFilter example_derBias example_input
      example_filter example_derOutput example_world
    = Some (VLE_Success, w')
    ∧ memory w' 5%nat 0 = 1 ∧ memory w' 5%nat 1 = 2 ∧ memory w' 5%nat 2 = 0.
Proof.
  destruct (backward_input_gradient 0 1 Z.add Z.mul always_succeeds
              example_allOnes Z.add_0_r Z.mul_1_l Z.mul_0_l (λ _, eq_refl)
              example_derInput example_derFilter example_derBias example_input
              example_filter example_derOutput example_world
              1%nat 5%nat 2%nat 0%nat)
    as (w' & Hrun & Hval);
    [reflexivity | reflexivity | reflexivity | reflexivity
    | lia | lia | vm_compute; lia
    | intros b [= <-]; lia | intros b [= <-]; lia |].
  exists w'. split; [exact Hrun|].
  pose proof (Hval 0 0 ltac:(by_computation) ltac:(by_computation)) as H0.
  pose proof (Hval 1 0 ltac:(by_computation) ltac:(by_computation)) as H1.
  pose proof (Hval 2 0 ltac:(by_computation) ltac:(by_computation)) as H2.
  split; [exact H0|]. split; [exact H1|exact H2].
Defined.

Lemma backward_identity_gradient_witness :
  ∃ w',
    FullyConnectedBackward 0 1 Z.add Z.mul always_succeeds example_allOnes
      example_derInput absent example_derBias example_input absent
      example_derOutput example_world
    = Some (VLE_Success, w')
    ∧ ∀ idx, 0 ≤ idx < getNumElements example_derOutput →
        memory w' 5%nat idx = memory example_world 0%nat idx.
Proof.
  apply (backward_identity_gradient 0 1 Z.add Z.mul always_succeeds
           example_allOnes (λ _, eq_refl)
           example_derInput absent example_derBias example_input
           example_derOutput example_world 5%nat 0%nat);
    [reflexivity | reflexivity | vm_compute; lia | intros b [= <-]; lia].
Defined.

Lemma forward_returns_last_status_witness :
  ∃ w' cs c,
    FullyConnectedForward 0 1 Z.add Z.mul allOnes_fails example_allOnes
      example_output example_input example_filter example_bias example_world
    = Some (allOnes_fails c, w')
    ∧ calls w' = calls example_world ++ cs ++ [c]
    ∧ (cs ++ [c]) `prefix_of`
        forward_calls 0 1 example_allOnes example_output example_input
          example_filter example_bias
    ∧ (cs ++ [c] = forward_calls 0 1 example_allOnes example_output
                     example_input example_filter example_bias
       ∨ allOnes_fails c ≠ VLE_Success)
    ∧ (∀ c', c' ∈ cs →
         allOnes_fails c' = VLE_Success ∨ ∃ d s n, c' = CallCopy d s n).
Proof.
  apply (forward_returns_last_status 0 1 Z.add Z.mul allOnes_fails
           example_allOnes example_output example_input example_filter
           example_bias example_world); reflexivity.
Defined.

Lemma forward_frame_witness :
  ∃ e w',
    FullyConnectedForward 0 1 Z.add Z.mul allOnes_fails example_allOnes
      example_output example_input example_filter example_bias example_world
    = Some (e, w')
    ∧ ∀ b, b ≠ 4%nat → b ≠ example_allOnes →
        memory w' b = memory example_world b.
Proof.
  apply (forward_frame 0 1 Z.add Z.mul allOnes_fails example_allOnes
           example_output example_input example_filter example_bias
           example_world 4%nat); reflexivity.
Defined.

Lemma forward_product_failure_witness :
  FullyConnectedForward 0 1 Z.add Z.mul product_fails example_allOnes
    example_output example_input example_filter example_bias example_world
  = Some (VLE_BackendFailure,
          mkWorld example_memory VLE_Success
            [CallGemm Trans NoTrans 2 3 3 1 (Some 1%nat) 3 (Some 2%nat) 3 0
               (Some 4%nat) 2]).
Proof.
  apply (forward_product_failure 0 1 Z.add Z.mul product_fails example_allOnes
           example_output example_input example_filter example_bias
           example_world
           (CallGemm Trans NoTrans 2 3 3 1 (Some 1%nat) 3 (Some 2%nat) 3 0
              (Some 4%nat) 2)
           [CallGetAllOnes 3;
            CallGemm NoTrans NoTrans 2 3 1 1 (Some 6%nat) 2 (Some 9%nat) 1 1
              (Some 4%nat) 2]);
    [reflexivity | reflexivity | discriminate].
Defined.

Lemma backward_returns_status_witness :
  ∃ e w' cs,
    FullyConnectedBackward 0 1 Z.add Z.mul product_fails example_allOnes
      example_derInput example_derFilter example_derBias example_input
      example_filter example_derOutput example_world
    = Some (e, w')
    ∧ calls w' = calls example_world ++ cs
    ∧ cs `prefix_of`
        backward_calls 0 1 example_allOnes example_derInput example_derFilter
          example_derBias example_input example_filter example_derOutput
    ∧ (cs = backward_calls 0 1 example_allOnes example_derInput
              example_derFilter example_derBias example_input example_filter
              example_derOutput
       ∨ e ≠ VLE_Success)
    ∧ e = backward_status_of product_fails cs
    ∧ (∀ c', c' ∈ cs →
         product_fails c' = VLE_Success ∨ last cs = Some c'
         ∨ ∃ d s n, c' = CallCopy d s n).
Proof.
  apply (backward_returns_status 0 1 Z.add Z.mul product_fails example_allOnes
           example_derInput example_derFilter example_derBias example_input
           example_filter example_derOutput example_world);
    [reflexivity | reflexivity | left; reflexivity].
Defined.

Lemma backward_copy_unguarded_witness :
  (copy_fails (@CallCopy Z None (getMemory example_derOutput)
                 (getNumElements example_derOutput)) = VLE_Success →
   FullyConnectedBackward 0 1 Z.add Z.mul copy_fails example_allOnes
     absent absent example_derBias example_input absent example_derOutput
     example_world = None)
  ∧ (copy_fails (@CallCopy Z None (getMemory example_derOutput)
                   (getNumElements example_derOutput)) ≠ VLE_Success →
     ∃ e w' cs,
       FullyConnectedBackward 0 1 Z.add Z.mul copy_fails example_allOnes
         absent absent example_derBias example_input absent example_derOutput
         example_world = Some (e, w')
       ∧ calls w'
         = calls example_world
           ++ CallCopy None (getMemory example_derOutput)
                (getNumElements example_derOutput) :: cs
       ∧ cs `prefix_of`
           backward_bias_calls 0 1 example_allOnes example_derBias
             example_derOutput).
Proof.
  apply (backward_copy_unguarded 0 1 Z.add Z.mul copy_fails example_allOnes
           absent absent example_derBias example_input absent
           example_derOutput example_world); reflexivity.
Defined.

Lemma forward_allones_failure_witness :
  ∃ w1,
    FullyConnectedForward 0 1 Z.add Z.mul allOnes_fails example_allOnes
      example_output example_input example_filter absent example_world
    = Some (VLE_Success, w1)
    ∧ FullyConnectedForward 0 1 Z.add Z.mul allOnes_fails example_allOnes
        example_output example_input example_filter example_bias example_world
      = Some (VLE_OutOfMemory,
              mkWorld (memory w1) VLE_OutOfMemory
                (calls w1 ++ [CallGetAllOnes (getSize example_input)])).
Proof.
  apply (forward_allones_failure 0 1 Z.add Z.mul allOnes_fails example_allOnes
           example_output example_input example_filter example_bias
           example_world);
    [reflexivity | reflexivity | reflexivity | | discriminate].
  intros c Hc. simpl in Hc.
  repeat (apply elem_of_cons in Hc as [->|Hc]); [reflexivity|].
  by apply elem_of_nil in Hc.
Defined.

Lemma backward_frame_witness :
  ∃ e w',
    FullyConnectedBackward 0 1 Z.add Z.mul product_fails example_allOnes
      example_derInput absent example_derBias example_input example_filter
      example_derOutput example_world = Some (e, w')
    ∧ ∀ b, getMemory example_derInput ≠ Some b → getMemory absent ≠ Some b →
           getMemory example_derBias ≠ Some b → b ≠ example_allOnes →
           memory w' b = memory example_world b.
Proof.
  apply (backward_frame 0 1 Z.add Z.mul product_fails example_allOnes
           example_derInput absent example_derBias example_input
           example_filter example_derOutput example_world);
    [reflexivity | reflexivity | left; reflexivity].
Defined.
